(** * raft-sqlite: the SQLite-backed Raft log store and stable store

    A shallow embedding of [sqlite_store.go].  The Go methods of
    [SqliteStore] become functions in a state-and-error monad over a model
    of the database connection: the two tables [logs] and [kv], the working
    copy of the transaction that is open (if any), a plan of engine faults
    and the trace of the engine calls made so far. *)

From Stdlib Require Import ZArith Lia.
From Stdlib.Strings Require Import Byte String.
From stdpp Require Import base option list countable gmap fin_maps.

Local Open Scope Z_scope.

(** ** Byte strings *)

(** A Go [[]byte] is modelled by its contents. *)
Abbreviation bytes := (list byte).

#[global] Instance byte_eq_decision : EqDecision byte := Byte.byte_eq_dec.

#[global] Instance byte_countable : Countable byte :=
  inj_countable Byte.to_N Byte.of_N Byte.of_to_N.

(** The byte [z mod 256]. *)
Definition byte_of_Z (z : Z) : byte :=
  match Byte.of_N (Z.to_N (z mod 256)) with
  | Some b => b
  | None => x00
  end.

Definition Z_of_byte (b : byte) : Z := Z.of_N (Byte.to_N b).

(** ** Errors *)

(** Go [error] values that the store produces or passes on.  The sentinels
    are compared by identity, [fmt.Errorf("...%w", e)] wraps one error and
    [errors.Join(a, b)] holds two. *)
Inductive error : Type :=
| ErrNoRows                         (* sql.ErrNoRows *)
| ErrTxDone                         (* sql.ErrTxDone *)
| ErrLogNotFound                    (* raft.ErrLogNotFound *)
| ErrKeyNotFound                    (* ErrKeyNotFound = errors.New("not found") *)
| ErrConstraint                     (* UNIQUE constraint failed: logs.idx *)
| ErrEngine (msg : string)          (* any other failure of the engine *)
| ErrCodec (msg : string)           (* a failure of the msgpack codec *)
| Errorf (prefix : string) (e : error)  (* fmt.Errorf(prefix + "%w", e) *)
| Join (e1 e2 : error).             (* errors.Join(e1, e2), both non-nil *)

#[global] Instance error_eq_dec : EqDecision error.
Proof. intros x y. unfold Decision. decide equality; apply string_dec. Defined.

(** [errors.Is(err, target)]: [err] is [target], or the error it wraps is,
    or one of the errors it joins is. *)
Fixpoint errors_Is (err target : error) : bool :=
  bool_decide (err = target) ||
  match err with
  | Errorf _ e => errors_Is e target
  | Join e1 e2 => errors_Is e1 target || errors_Is e2 target
  | _ => false
  end.

(** A Go result [(v, err)]: the value when [err] is nil, the error otherwise. *)
Inductive result (A : Type) : Type :=
| OK (a : A)
| Err (e : error).
Arguments OK {A} a.
Arguments Err {A} e.

(** [database/sql] hands a [uint64] argument of a statement to the driver
    as an [int64], and refuses one with the high bit set: the statement then
    fails with this error and is not run. *)
Definition ErrHighBit : error :=
  ErrEngine "uint64 values with high bit set are not supported".

Definition uint64_arg (u : Z) : result Z :=
  if decide (u < 2 ^ 63) then OK u else Err ErrHighBit.

(** The [error] a Go function returns, [None] for nil. *)
Definition error_of {A} (r : result A) : option error :=
  match r with OK _ => None | Err e => Some e end.

(** ** The database *)

(** The schema [NewStore] creates:
    [logs (idx INTEGER PRIMARY KEY, data BLOB)] and
    [kv (key TEXT PRIMARY KEY, value BLOB)]. *)
Record Tables : Type := mkTables {
  logs : gmap Z bytes;
  kv : gmap bytes bytes
}.

Definition no_tables : Tables := {| logs := ∅; kv := ∅ |}.

(** Calls into the engine, with the error each one returned. *)
Inductive event : Type :=
| EvBegin (err : option error)
| EvStmt (err : option error)
| EvCommit (err : option error)
| EvRollback (err : option error).

(** The connection behind [s.db].  [faults] schedules the failures of the
    engine itself (an I/O error, a lost connection): every call consumes the
    head of the list and fails with it when it is [Some e]; an exhausted
    plan means the engine works. *)
Record Conn : Type := mkConn {
  tables : Tables;               (* the committed contents *)
  txn : option Tables;           (* working copy of the open transaction *)
  faults : list (option error);
  trace : list event
}.

Definition next_fault (c : Conn) : option error :=
  match faults c with
  | Some e :: _ => Some e
  | _ => None
  end.

(** One call into the engine: its scheduled fault, if any, is used up and
    the call is recorded. *)
Definition step (ev : event) (c : Conn) : Conn :=
  {| tables := tables c; txn := txn c;
     faults := tail (faults c); trace := trace c ++ [ev] |}.

Definition set_txn (w : option Tables) (c : Conn) : Conn :=
  {| tables := tables c; txn := w; faults := faults c; trace := trace c |}.

Definition set_tables (t : Tables) (c : Conn) : Conn :=
  {| tables := t; txn := txn c; faults := faults c; trace := trace c |}.

(** The store [NewStore] returns for a new database: both tables exist and
    are empty, and the initialization transaction has ended. *)
Definition new_store (plan : list (option error)) : Conn :=
  {| tables := no_tables; txn := None; faults := plan; trace := [] |}.

(** The engine raises no fault of its own from this state on. *)
Definition healthy (c : Conn) : Prop := Forall (λ f, f = None) (faults c).

(** ** Computations on the connection *)

Definition M (A : Type) : Type := Conn → result A * Conn.

Definition ret {A} (a : A) : M A := fun c => (OK a, c).
Definition fail {A} (e : error) : M A := fun c => (Err e, c).
Definition bind {A B} (m : M A) (k : A → M B) : M B :=
  fun c =>
    match m c with
    | (OK a, c') => k a c'
    | (Err e, c') => (Err e, c')
    end.

Declare Scope store_scope.
Delimit Scope store_scope with store.
Notation "'let*' x ':=' m 'in' k" := (bind m (fun x => k))
  (at level 10, x name, m at level 100, k at level 200) : store_scope.
Local Open Scope store_scope.

(** ** The engine: [database/sql] over SQLite *)

(** [s.db.Begin()]: the transaction starts from the committed contents. *)
Definition db_Begin : M unit := fun c =>
  match next_fault c with
  | Some e => (Err e, step (EvBegin (Some e)) c)
  | None => (OK tt, set_txn (Some (tables c)) (step (EvBegin None) c))
  end.

(** [tx.Commit()]: the handle is finished whatever the outcome; the working
    copy becomes the committed contents only when the engine reports
    success. *)
Definition tx_Commit : M unit := fun c =>
  match txn c with
  | None => (Err ErrTxDone, c)
  | Some w =>
      match next_fault c with
      | Some e => (Err e, set_txn None (step (EvCommit (Some e)) c))
      | None => (OK tt, set_txn None (set_tables w (step (EvCommit None) c)))
      end
  end.

(** [tx.Rollback()]: the working copy is dropped. *)
Definition tx_Rollback : M unit := fun c =>
  match txn c with
  | None => (Err ErrTxDone, c)
  | Some _ =>
      match next_fault c with
      | Some e => (Err e, set_txn None (step (EvRollback (Some e)) c))
      | None => (OK tt, set_txn None (step (EvRollback None) c))
      end
  end.

(** A data-modifying statement: the new tables, or the error that aborts the
    statement and leaves the tables as they were. *)
Definition statement : Type := Tables → result Tables.

(** A single-row query: the scanned column of the first row, if any, or the
    error of an argument that is refused. *)
Definition query (A : Type) : Type := Tables → result (option A).

(** [tx.Exec(stmt, args...)]. *)
Definition tx_Exec (st : statement) : M unit := fun c =>
  match txn c with
  | None => (Err ErrTxDone, c)
  | Some w =>
      match next_fault c with
      | Some e => (Err e, step (EvStmt (Some e)) c)
      | None =>
          match st w with
          | Err e => (Err e, step (EvStmt (Some e)) c)
          | OK w' => (OK tt, set_txn (Some w') (step (EvStmt None) c))
          end
      end
  end.

(** [tx.QueryRow(q, args...).Scan(&v)]: [sql.ErrNoRows] when the query
    selects no row. *)
Definition tx_QueryRow_Scan {A} (q : query A) : M A := fun c =>
  match txn c with
  | None => (Err ErrTxDone, c)
  | Some w =>
      match next_fault c with
      | Some e => (Err e, step (EvStmt (Some e)) c)
      | None =>
          match q w with
          | Err e => (Err e, step (EvStmt (Some e)) c)
          | OK None => (Err ErrNoRows, step (EvStmt (Some ErrNoRows)) c)
          | OK (Some a) => (OK a, step (EvStmt None) c)
          end
      end
  end.

(** ** The statements of [sqlite_store.go] *)

(** [INSERT INTO logs (idx, data) VALUES (?, ?)]: [idx] is the primary key,
    so a second row with the same [idx] violates the constraint. *)
Definition INSERT_INTO_logs (idx : Z) (data : bytes) : statement := fun t =>
  match uint64_arg idx with
  | Err e => Err e
  | OK idx =>
      match logs t !! idx with
      | Some _ => Err ErrConstraint
      | None => OK {| logs := <[idx := data]> (logs t); kv := kv t |}
      end
  end.

(** [DELETE FROM logs WHERE idx >= ? AND idx <= ?]. *)
Definition DELETE_FROM_logs (min max : Z) : statement := fun t =>
  match uint64_arg min, uint64_arg max with
  | Err e, _ | _, Err e => Err e
  | OK min, OK max =>
      OK {| logs := filter (λ row, ¬ (min ≤ row.1 ∧ row.1 ≤ max)) (logs t);
            kv := kv t |}
  end.

(** [INSERT OR REPLACE INTO kv (key, value) VALUES (?, ?)]. *)
Definition INSERT_OR_REPLACE_INTO_kv (k v : bytes) : statement := fun t =>
  OK {| logs := logs t; kv := <[k := v]> (kv t) |}.

(** The least and the greatest element of a list of indices. *)
Definition least (l : list Z) : option Z :=
  foldr (λ k acc, Some (from_option (Z.min k) k acc)) None l.
Definition greatest (l : list Z) : option Z :=
  foldr (λ k acc, Some (from_option (Z.max k) k acc)) None l.

Definition indices (t : Tables) : list Z := (map_to_list (logs t)).*1.

(** [SELECT idx FROM logs ORDER BY idx ASC LIMIT 1]. *)
Definition SELECT_idx_ASC_LIMIT_1 : query Z := fun t =>
  OK (least (indices t)).

(** [SELECT idx FROM logs ORDER BY idx DESC LIMIT 1]. *)
Definition SELECT_idx_DESC_LIMIT_1 : query Z := fun t =>
  OK (greatest (indices t)).

(** [SELECT data FROM logs WHERE idx = ?]. *)
Definition SELECT_data_FROM_logs (idx : Z) : query bytes := fun t =>
  match uint64_arg idx with
  | Err e => Err e
  | OK idx => OK (logs t !! idx)
  end.

(** [SELECT value FROM kv WHERE key = ?]. *)
Definition SELECT_value_FROM_kv (k : bytes) : query bytes := fun t =>
  OK (kv t !! k).

(** ** Log entries and their codec *)

(** [raft.Log] of hashicorp/raft: the entry the consensus layer hands over. *)
Record Log : Type := mkLog {
  Index : Z;
  Term : Z;
  Type_ : Z;
  Data : bytes;
  Extensions : bytes
}.

#[global] Instance Log_eq_dec : EqDecision Log.
Proof. solve_decision. Defined.

(** The serialization boundary.  [encodeMsgPack] and [decodeMsgPack] are
    helpers of the package outside [sqlite_store.go]; the store only passes
    their bytes through, so they are an interface here. *)
Class Codec : Type := {
  encodeMsgPack : Log → result bytes;
  decodeMsgPack : bytes → result Log
}.

(** The entry survives the trip through the codec. *)
Definition round_trips `{Codec} (l : Log) : Prop :=
  ∃ b, encodeMsgPack l = OK b ∧ decodeMsgPack b = OK l.

(** Modelled from the spec: [uint64ToBytes] and [bytesToUint64], helpers of
    the package outside [sqlite_store.go], are the fixed-width big-endian
    encoding of an unsigned 64-bit integer in eight bytes, most significant
    byte first.  [bytesToUint64] reads the first eight bytes of its
    argument. *)
Fixpoint big_endian (width : nat) (u : Z) : bytes :=
  match width with
  | O => []
  | S w => byte_of_Z (u / 256 ^ Z.of_nat w) :: big_endian w u
  end.

Definition from_big_endian (b : bytes) : Z :=
  foldl (λ acc x, acc * 256 + Z_of_byte x) 0 b.

Definition uint64ToBytes (u : Z) : bytes := big_endian 8 u.
Definition bytesToUint64 (b : bytes) : Z := from_big_endian (take 8 b).

(** ** The store *)

(** [s.transaction(f)]: begin, run [f], commit when [f] returns nil,
    otherwise roll back and return [f]'s error, joined with the rollback's
    own error if it has one.  The value [f] scans into the caller's variable
    is [f]'s result here. *)
Definition transaction {A} (f : M A) : M A := fun c =>
  match db_Begin c with
  | (Err err, c1) => (Err err, c1)
  | (OK _, c1) =>
      match f c1 with
      | (OK a, c2) =>
          match tx_Commit c2 with
          | (OK _, c3) => (OK a, c3)
          | (Err err, c3) => (Err err, c3)
          end
      | (Err err, c2) =>
          match tx_Rollback c2 with
          | (OK _, c3) => (Err err, c3)
          | (Err txerr, c3) =>
              (Err (Join err (Errorf "rollback failed: " txerr)), c3)
          end
      end
  end.

(** The closures the operations hand to [transaction]. *)
Definition FirstIndex_func1 : M Z :=
  tx_QueryRow_Scan SELECT_idx_ASC_LIMIT_1.
Definition LastIndex_func1 : M Z :=
  tx_QueryRow_Scan SELECT_idx_DESC_LIMIT_1.
Definition GetLog_func1 (idx : Z) : M bytes :=
  tx_QueryRow_Scan (SELECT_data_FROM_logs idx).
Definition DeleteRange_func1 (min max : Z) : M unit :=
  tx_Exec (DELETE_FROM_logs min max).
Definition Set_func1 (k v : bytes) : M unit :=
  tx_Exec (INSERT_OR_REPLACE_INTO_kv k v).
Definition Get_func1 (k : bytes) : M bytes :=
  tx_QueryRow_Scan (SELECT_value_FROM_kv k).

(** [FirstIndex]. *)
Definition FirstIndex : M Z := fun c =>
  match transaction FirstIndex_func1 c with
  | (Err err, c') =>
      if errors_Is err ErrNoRows then (OK 0, c') else (Err err, c')
  | (OK idx, c') => (OK idx, c')
  end.

(** [LastIndex]. *)
Definition LastIndex : M Z := fun c =>
  match transaction LastIndex_func1 c with
  | (Err err, c') => (Err err, c')
  | (OK idx, c') => (OK idx, c')
  end.

(** [DeleteRange]. *)
Definition DeleteRange (min max : Z) : M unit :=
  transaction (DeleteRange_func1 min max).

(** [Set]. *)
Definition Set_ (k v : bytes) : M unit :=
  transaction (Set_func1 k v).

(** [Get]. *)
Definition Get (k : bytes) : M bytes := fun c =>
  match transaction (Get_func1 k) c with
  | (Err err, c') =>
      if errors_Is err ErrNoRows then (Err ErrKeyNotFound, c')
      else (Err err, c')
  | (OK value, c') => (OK value, c')
  end.

(** [SetUint64]. *)
Definition SetUint64 (key : bytes) (val : Z) : M unit :=
  Set_ key (uint64ToBytes val).

(** [GetUint64]. *)
Definition GetUint64 (key : bytes) : M Z :=
  let* val := Get key in
  ret (bytesToUint64 val).

Section LogStore.
Context `{Codec}.

(** [GetLog]: the entry decoded into the caller's [*raft.Log] is the
    result. *)
Definition GetLog (idx : Z) : M Log := fun c =>
  match transaction (GetLog_func1 idx) c with
  | (Err err, c') =>
      if errors_Is err ErrNoRows then (Err ErrLogNotFound, c')
      else (Err err, c')
  | (OK data, c') => (decodeMsgPack data, c')
  end.

(** The closure of [StoreLogs]: an encoding error returns at once; the
    error of [tx.Exec] is assigned to [err] and not looked at again. *)
Fixpoint StoreLogs_func1 (logs : list Log) : M unit :=
  match logs with
  | [] => ret tt
  | log :: rest =>
      let key := Index log in
      match encodeMsgPack log with
      | Err err => fail err
      | OK val => fun c =>
          let '(_, c') := tx_Exec (INSERT_INTO_logs key val) c in
          StoreLogs_func1 rest c'
      end
  end.

(** [StoreLogs]. *)
Definition StoreLogs (logs : list Log) : M unit :=
  transaction (StoreLogs_func1 logs).

(** [StoreLog]. *)
Definition StoreLog (log : Log) : M unit := StoreLogs [log].

(** *** The operations as data *)

(** The calls of [raft.LogStore] and [raft.StableStore]. *)
Inductive operation : Type :=
| Op_FirstIndex
| Op_LastIndex
| Op_GetLog (idx : Z)
| Op_StoreLog (log : Log)
| Op_StoreLogs (logs : list Log)
| Op_DeleteRange (min max : Z)
| Op_Set (k v : bytes)
| Op_Get (k : bytes)
| Op_SetUint64 (key : bytes) (val : Z)
| Op_GetUint64 (key : bytes).

(** The [error] a computation returns, its value forgotten. *)
Definition returned {A} (m : M A) : Conn → option error * Conn := fun c =>
  let '(r, c') := m c in (error_of r, c').

Definition perform (o : operation) : Conn → option error * Conn :=
  match o with
  | Op_FirstIndex => returned FirstIndex
  | Op_LastIndex => returned LastIndex
  | Op_GetLog idx => returned (GetLog idx)
  | Op_StoreLog log => returned (StoreLog log)
  | Op_StoreLogs logs => returned (StoreLogs logs)
  | Op_DeleteRange min max => returned (DeleteRange min max)
  | Op_Set k v => returned (Set_ k v)
  | Op_Get k => returned (Get k)
  | Op_SetUint64 key val => returned (SetUint64 key val)
  | Op_GetUint64 key => returned (GetUint64 key)
  end.

(** The closure an operation runs between begin and commit. *)
Definition closure (o : operation) : Conn → option error * Conn :=
  match o with
  | Op_FirstIndex => returned FirstIndex_func1
  | Op_LastIndex => returned LastIndex_func1
  | Op_GetLog idx => returned (GetLog_func1 idx)
  | Op_StoreLog log => returned (StoreLogs_func1 [log])
  | Op_StoreLogs logs => returned (StoreLogs_func1 logs)
  | Op_DeleteRange min max => returned (DeleteRange_func1 min max)
  | Op_Set k v => returned (Set_func1 k v)
  | Op_Get k => returned (Get_func1 k)
  | Op_SetUint64 key val => returned (Set_func1 key (uint64ToBytes val))
  | Op_GetUint64 key => returned (Get_func1 key)
  end.

(** The operations that hand the error of [transaction] to their caller
    as it is; the others test it for [sql.ErrNoRows] first. *)
Definition passes_error_on (o : operation) : bool :=
  match o with
  | Op_FirstIndex | Op_GetLog _ | Op_Get _ | Op_GetUint64 _ => false
  | _ => true
  end.

(** *** Histories of log-store calls *)

Inductive call : Type :=
| Call_StoreLog (log : Log)
| Call_StoreLogs (logs : list Log)
| Call_DeleteRange (min max : Z).

Definition do_call (k : call) : M unit :=
  match k with
  | Call_StoreLog log => StoreLog log
  | Call_StoreLogs logs => StoreLogs logs
  | Call_DeleteRange min max => DeleteRange min max
  end.

Fixpoint do_calls (h : list call) : M unit :=
  match h with
  | [] => ret tt
  | k :: h' => let* _ := do_call k in do_calls h'
  end.

End LogStore.

(** The entries a call stores. *)
Definition entries (k : call) : list Log :=
  match k with
  | Call_StoreLog log => [log]
  | Call_StoreLogs logs => logs
  | Call_DeleteRange _ _ => []
  end.

(** The log as the consensus layer sees it: a finite map from index to
    entry, to which a store call adds its entries and from which a range
    deletion removes the indices in the closed interval. *)
Definition log_after (k : call) (m : gmap Z Log) : gmap Z Log :=
  match k with
  | Call_DeleteRange min max => filter (λ row, ¬ (min ≤ row.1 ∧ row.1 ≤ max)) m
  | _ => foldl (λ m l, <[Index l := l]> m) m (entries k)
  end.

Definition log_of (h : list call) : gmap Z Log := foldl (λ m k, log_after k m) ∅ h.

(** Indices are pairwise unique along a history: no call stores an index
    twice, nor an index the log holds at that time. *)
Fixpoint unique_indices (h : list call) (m : gmap Z Log) : Prop :=
  match h with
  | [] => True
  | k :: h' =>
      NoDup (Index <$> entries k) ∧
      (∀ l, l ∈ entries k → m !! Index l = None) ∧
      unique_indices h' (log_after k m)
  end.

(** A call whose arguments the driver accepts: indices that are [uint64]
    values without the high bit. *)
Definition accepted (k : call) : Prop :=
  match k with
  | Call_DeleteRange min max => 0 ≤ min < 2 ^ 63 ∧ 0 ≤ max < 2 ^ 63
  | _ => ∀ l, l ∈ entries k → 0 ≤ Index l < 2 ^ 63
  end.

(** A history without deletions. *)
Definition stores_only (h : list call) : Prop :=
  ∀ k, k ∈ h → match k with Call_DeleteRange _ _ => False | _ => True end.

(** A sequence of [Set] calls. *)
Fixpoint do_sets (sets : list (bytes * bytes)) : M unit :=
  match sets with
  | [] => ret tt
  | (k, v) :: rest => let* _ := Set_ k v in do_sets rest
  end.

(** ** A codec to run the store on concrete entries *)

(** A fixed layout: index, term and the length of the data in eight
    big-endian bytes each, the type in one byte, then data and
    extensions. *)
Definition layout_encode (l : Log) : result bytes :=
  OK (big_endian 8 (Index l) ++ big_endian 8 (Term l) ++
      big_endian 1 (Type_ l) ++
      big_endian 8 (Z.of_nat (length (Data l))) ++
      Data l ++ Extensions l).

Definition layout_decode (b : bytes) : result Log :=
  if decide (length b < 25)%nat then Err (ErrCodec "short buffer")
  else
    let n := Z.to_nat (from_big_endian (take 8 (drop 17 b))) in
    OK {| Index := from_big_endian (take 8 b);
          Term := from_big_endian (take 8 (drop 8 b));
          Type_ := from_big_endian (take 1 (drop 16 b));
          Data := take n (drop 25 b);
          Extensions := drop (25 + n) b |}.

Definition layout_codec : Codec :=
  {| encodeMsgPack := layout_encode; decodeMsgPack := layout_decode |}.

(** The entries whose fields fit the layout. *)
Definition fits_layout (l : Log) : Prop :=
  0 ≤ Index l < 2 ^ 64 ∧ 0 ≤ Term l < 2 ^ 64 ∧ 0 ≤ Type_ l < 2 ^ 8 ∧
  Z.of_nat (length (Data l)) < 2 ^ 64.

(** [createRaftLog] of the package's tests. *)
Definition createRaftLog (idx : Z) (data : string) : Log :=
  {| Index := idx; Term := 0; Type_ := 0;
     Data := list_byte_of_string data; Extensions := [] |}.

(** The entries of the tests, and a store that holds the second of them. *)
Definition log1 : Log := createRaftLog 1 "log1".
Definition log2 : Log := createRaftLog 2 "log2".
Definition log3 : Log := createRaftLog 3 "log3".

Definition store_with_log2 : Conn :=
  (@StoreLog layout_codec log2 (new_store [])).2.

(** A new store whose engine will fail the third call made to it. *)
Definition store_failing_third_call : Conn :=
  new_store [None; None; Some (ErrEngine "disk I/O error")].

(** The history of [TestDeleteRange], followed by one more entry. *)
Definition history_of_TestDeleteRange : list call :=
  [Call_StoreLogs [log1; log2; log3]; Call_DeleteRange 1 2;
   Call_StoreLog (createRaftLog 2 "again")].

(** A store with three rows in [logs] and one in [kv]. *)
Definition store_with_three_rows : Conn :=
  {| tables := {| logs := <[1 := [x61]]> (<[2 := [x62]]> (<[3 := [x63]]> ∅));
                  kv := <[[x6b] := [x76]]> ∅ |};
     txn := None; faults := [None; None; None]; trace := [] |}.

(** What the closure of [StoreLogs] makes of the working copy on a healthy
    engine: every entry is inserted unless its index is taken, up to the
    first entry that does not encode. *)
Fixpoint insert_each `{Codec} (ls : list Log) (t : Tables) : result Tables :=
  match ls with
  | [] => OK t
  | l :: rest =>
      match encodeMsgPack l with
      | Err e => Err e
      | OK b =>
          insert_each rest
            match INSERT_INTO_logs (Index l) b t with
            | OK t' => t'
            | Err _ => t
            end
      end
  end.

(** The table [logs] holds the log [m]: a row per entry, under the entry's
    index, whose data decodes to the entry. *)
Definition represents `{Codec} (m : gmap Z Log) (t : Tables) : Prop :=
  ∀ i, match m !! i with
       | Some l => Index l = i ∧
                   ∃ b, logs t !! i = Some b ∧ decodeMsgPack b = OK l
       | None => logs t !! i = None
       end.

(** ** The shape of a transaction *)

Definition is_stmt (ev : event) : Prop :=
  match ev with EvStmt _ => True | _ => False end.

(** How a transaction ends, given the error of its closure: the last call
    into the engine and the error [transaction] returns. *)
Inductive tx_end : option error → event → option error → Prop :=
| tx_committed :
    tx_end None (EvCommit None) None
| tx_commit_failed e :
    tx_end None (EvCommit (Some e)) (Some e)
| tx_rolled_back err :
    tx_end (Some err) (EvRollback None) (Some err)
| tx_rollback_failed err txerr :
    tx_end (Some err) (EvRollback (Some txerr))
      (Some (Join err (Errorf "rollback failed: " txerr))).

(** A closure that stays inside the transaction it is given: it only issues
    statements, and neither ends the transaction nor touches the committed
    contents. *)
Definition scoped {A} (f : M A) : Prop :=
  ∀ c w, txn c = Some w →
    ∃ w' stmts, txn (f c).2 = Some w' ∧ tables (f c).2 = tables c ∧
                trace (f c).2 = trace c ++ stmts ∧ Forall is_stmt stmts.

(** ** What an operation may do to the tables *)

(** The fault scheduled for the [n]-th call into the engine from now on. *)
Definition fault_at (n : nat) (c : Conn) : option error :=
  match faults c !! n with
  | Some (Some e) => Some e
  | _ => None
  end.

(** A closure whose effect on the working copy lies within [R], and which
    neither ends the transaction nor touches the committed contents. *)
Definition within {A} (R : Tables → Tables → Prop) (f : M A) : Prop :=
  ∀ c w, txn c = Some w →
    ∃ w', txn (f c).2 = Some w' ∧ R w w' ∧ tables (f c).2 = tables c.

(** What the inserts of a batch may do: they leave [kv] and the rows that
    exist alone, and add rows only at indices of the batch. *)
Definition adds_rows_of (ls : list Log) (w w' : Tables) : Prop :=
  kv w' = kv w ∧
  (∀ i b, logs w !! i = Some b → logs w' !! i = Some b) ∧
  (∀ i, (∀ l, l ∈ ls → Index l ≠ i) → logs w' !! i = logs w !! i).

(** A statement that ran or was aborted. *)
Definition ran_or_not (st : statement) (w w' : Tables) : Prop :=
  w' = w ∨ st w = OK w'.

(** The change an operation can commit. *)
Definition effect (o : operation) (w w' : Tables) : Prop :=
  match o with
  | Op_StoreLog log => adds_rows_of [log] w w'
  | Op_StoreLogs logs => adds_rows_of logs w w'
  | Op_DeleteRange min max => ran_or_not (DELETE_FROM_logs min max) w w'
  | Op_Set k v => ran_or_not (INSERT_OR_REPLACE_INTO_kv k v) w w'
  | Op_SetUint64 key val =>
      ran_or_not (INSERT_OR_REPLACE_INTO_kv key (uint64ToBytes val)) w w'
  | _ => w' = w
  end.

(** The operations that only query. *)
Definition is_read (o : operation) : bool :=
  match o with
  | Op_FirstIndex | Op_LastIndex | Op_GetLog _ | Op_Get _ | Op_GetUint64 _ =>
      true
  | _ => false
  end.

(** The operations of the key/value repository. *)
Definition is_kv_op (o : operation) : bool :=
  match o with
  | Op_Set _ _ | Op_Get _ | Op_SetUint64 _ _ | Op_GetUint64 _ => true
  | _ => false
  end.

(** The data of the first entry of a batch that has index [i]. *)
Fixpoint first_data `{Codec} (i : Z) (ls : list Log) : option bytes :=
  match ls with
  | [] => None
  | l :: rest =>
      if decide (Index l = i) then
        match encodeMsgPack l with OK b => Some b | Err _ => None end
      else first_data i rest
  end.

(** A codec that refuses the entries that do not fit the fixed layout. *)
#[global] Instance fits_layout_dec (l : Log) : Decision (fits_layout l).
Proof. unfold fits_layout. apply _. Defined.

Definition checked_encode (l : Log) : result bytes :=
  if decide (fits_layout l) then layout_encode l
  else Err (ErrCodec "entry does not fit").

Definition checked_codec : Codec :=
  {| encodeMsgPack := checked_encode; decodeMsgPack := layout_decode |}.

(** A new store whose engine will fail the second call made to it. *)
Definition store_failing_second_call : Conn :=
  new_store [None; Some (ErrEngine "disk I/O error"); None].

(** An entry that does not fit the fixed layout. *)
Definition log_out_of_range : Log := createRaftLog (-1) "bad".

(** * Properties *)

(** ** A healthy engine *)

Lemma healthy_next_fault c : healthy c → next_fault c = None.
Proof.
  unfold healthy, next_fault. destruct (faults c) as [|[e|] fs]; try done.
  intros Hf. by apply Forall_cons_1 in Hf as [? _].
Qed.

Lemma healthy_step ev c : healthy c → healthy (step ev c).
Proof.
  unfold healthy. simpl. destruct (faults c) as [|f fs]; simpl; [done|].
  intros Hf. by apply Forall_cons_1 in Hf as [_ ?].
Qed.

Lemma healthy_set_txn w c : healthy c → healthy (set_txn w c).
Proof. done. Qed.

Lemma healthy_set_tables t c : healthy c → healthy (set_tables t c).
Proof. done. Qed.

Lemma healthy_new_store : healthy (new_store []).
Proof. constructor. Qed.

Create HintDb engine.
#[local] Hint Resolve healthy_step healthy_set_txn healthy_set_tables
  healthy_new_store : engine.

(** Rewrites the fault lookups of a run whose engine is healthy. *)
Ltac no_fault :=
  repeat (rewrite healthy_next_fault by eauto 10 with engine); simpl.

(** A transaction around one query, on a healthy engine: the answer comes
    from the committed tables, which stay as they are. *)
Lemma transaction_query_healthy {A} (q : query A) c :
  healthy c →
  ∃ c', transaction (tx_QueryRow_Scan q) c =
          (match q (tables c) with
           | OK (Some a) => OK a
           | OK None => Err ErrNoRows
           | Err e => Err e
           end, c')
        ∧ tables c' = tables c ∧ txn c' = None ∧ healthy c'.
Proof.
  intros Hc. unfold transaction, db_Begin. no_fault.
  unfold tx_QueryRow_Scan. simpl. no_fault.
  destruct (q (tables c)) as [[a|]|e].
  - unfold tx_Commit. simpl. no_fault.
    eexists; split; [reflexivity|]. repeat split; eauto 10 with engine.
  - unfold tx_Rollback. simpl. no_fault.
    eexists; split; [reflexivity|]. repeat split; eauto 10 with engine.
  - unfold tx_Rollback. simpl. no_fault.
    eexists; split; [reflexivity|]. repeat split; eauto 10 with engine.
Qed.

(** ** Arguments the driver accepts *)

Lemma uint64_arg_accepted u : u < 2 ^ 63 → uint64_arg u = OK u.
Proof. intros Hu. unfold uint64_arg. by rewrite decide_True. Qed.

Lemma uint64_arg_refused u : ¬ u < 2 ^ 63 → uint64_arg u = Err ErrHighBit.
Proof. intros Hu. unfold uint64_arg. by rewrite decide_False. Qed.

Lemma uint64_arg_OK u v : uint64_arg u = OK v → v = u ∧ u < 2 ^ 63.
Proof. unfold uint64_arg. case_decide; [|done]. by intros [= <-]. Qed.

(** A statement that ran was given arguments the driver accepts. *)
Lemma INSERT_INTO_logs_OK idx data t t' :
  INSERT_INTO_logs idx data t = OK t' →
  idx < 2 ^ 63 ∧ logs t !! idx = None ∧
  t' = {| logs := <[idx := data]> (logs t); kv := kv t |}.
Proof.
  unfold INSERT_INTO_logs. destruct (uint64_arg idx) as [i|e] eqn:Hi; [|done].
  apply uint64_arg_OK in Hi as [-> Hlt].
  destruct (logs t !! idx); [done|]. by intros [= <-].
Qed.

Lemma INSERT_INTO_logs_fresh idx data t :
  idx < 2 ^ 63 → logs t !! idx = None →
  INSERT_INTO_logs idx data t
  = OK {| logs := <[idx := data]> (logs t); kv := kv t |}.
Proof.
  intros Hlt Hnone. unfold INSERT_INTO_logs.
  by rewrite uint64_arg_accepted, Hnone.
Qed.

Lemma DELETE_FROM_logs_OK min max t t' :
  DELETE_FROM_logs min max t = OK t' →
  t' = {| logs := filter (λ row, ¬ (min ≤ row.1 ∧ row.1 ≤ max)) (logs t);
          kv := kv t |}.
Proof.
  unfold DELETE_FROM_logs.
  destruct (uint64_arg min) as [i|e] eqn:Hi; [|done].
  destruct (uint64_arg max) as [j|e] eqn:Hj; [|done].
  apply uint64_arg_OK in Hi as [-> _]. apply uint64_arg_OK in Hj as [-> _].
  by intros [= <-].
Qed.

Lemma DELETE_FROM_logs_accepted min max t :
  min < 2 ^ 63 → max < 2 ^ 63 →
  DELETE_FROM_logs min max t
  = OK {| logs := filter (λ row, ¬ (min ≤ row.1 ∧ row.1 ≤ max)) (logs t);
          kv := kv t |}.
Proof.
  intros Hmin Hmax. unfold DELETE_FROM_logs.
  by rewrite !uint64_arg_accepted.
Qed.

(** A transaction around one statement, on a healthy engine. *)
Lemma transaction_exec_healthy (st : statement) c :
  healthy c →
  ∃ c', transaction (tx_Exec st) c =
          (match st (tables c) with OK _ => OK tt | Err e => Err e end, c')
        ∧ tables c' = match st (tables c) with
                      | OK t => t
                      | Err _ => tables c
                      end
        ∧ txn c' = None ∧ healthy c'.
Proof.
  intros Hc. unfold transaction, db_Begin. no_fault.
  unfold tx_Exec. simpl. no_fault.
  destruct (st (tables c)) as [t|e].
  - unfold tx_Commit. simpl. no_fault.
    eexists; split; [reflexivity|]. repeat split; eauto 10 with engine.
  - unfold tx_Rollback. simpl. no_fault.
    eexists; split; [reflexivity|]. repeat split; eauto 10 with engine.
Qed.

(** ** The operations on a healthy engine *)

Lemma FirstIndex_healthy c :
  healthy c →
  ∃ c', FirstIndex c = (OK (default 0 (least (indices (tables c)))), c')
        ∧ tables c' = tables c ∧ txn c' = None ∧ healthy c'.
Proof.
  intros Hc. unfold FirstIndex, FirstIndex_func1.
  destruct (transaction_query_healthy SELECT_idx_ASC_LIMIT_1 c Hc)
    as (c' & -> & ?). exists c'. split; [|done].
  unfold SELECT_idx_ASC_LIMIT_1. by destruct (least _).
Qed.

Lemma LastIndex_healthy c :
  healthy c →
  ∃ c', LastIndex c =
          (match greatest (indices (tables c)) with
           | Some i => OK i
           | None => Err ErrNoRows
           end, c')
        ∧ tables c' = tables c ∧ txn c' = None ∧ healthy c'.
Proof.
  intros Hc. unfold LastIndex, LastIndex_func1.
  destruct (transaction_query_healthy SELECT_idx_DESC_LIMIT_1 c Hc)
    as (c' & -> & ?). exists c'. split; [|done].
  unfold SELECT_idx_DESC_LIMIT_1. by destruct (greatest _).
Qed.

Lemma Get_healthy k c :
  healthy c →
  ∃ c', Get k c =
          (match kv (tables c) !! k with
           | Some v => OK v
           | None => Err ErrKeyNotFound
           end, c')
        ∧ tables c' = tables c ∧ txn c' = None ∧ healthy c'.
Proof.
  intros Hc. unfold Get, Get_func1.
  destruct (transaction_query_healthy (SELECT_value_FROM_kv k) c Hc)
    as (c' & -> & ?). exists c'. split; [|done].
  unfold SELECT_value_FROM_kv. by destruct (kv _ !! k).
Qed.

Lemma Set_healthy k v c :
  healthy c →
  ∃ c', Set_ k v c = (OK tt, c')
        ∧ tables c' = {| logs := logs (tables c);
                         kv := <[k := v]> (kv (tables c)) |}
        ∧ txn c' = None ∧ healthy c'.
Proof.
  intros Hc. unfold Set_, Set_func1.
  destruct (transaction_exec_healthy (INSERT_OR_REPLACE_INTO_kv k v) c Hc)
    as (c' & -> & ?). by exists c'.
Qed.

Lemma DeleteRange_healthy min max c :
  healthy c → min < 2 ^ 63 → max < 2 ^ 63 →
  ∃ c', DeleteRange min max c = (OK tt, c')
        ∧ tables c' =
            {| logs := filter (λ row, ¬ (min ≤ row.1 ∧ row.1 ≤ max))
                         (logs (tables c));
               kv := kv (tables c) |}
        ∧ txn c' = None ∧ healthy c'.
Proof.
  intros Hc Hmin Hmax. unfold DeleteRange, DeleteRange_func1.
  destruct (transaction_exec_healthy (DELETE_FROM_logs min max) c Hc)
    as (c' & -> & ?). exists c'.
  by rewrite DELETE_FROM_logs_accepted in *.
Qed.

Section LogStoreHealthy.
Context `{Codec}.

Lemma GetLog_healthy idx c :
  healthy c → idx < 2 ^ 63 →
  ∃ c', GetLog idx c =
          (match logs (tables c) !! idx with
           | Some data => decodeMsgPack data
           | None => Err ErrLogNotFound
           end, c')
        ∧ tables c' = tables c ∧ txn c' = None ∧ healthy c'.
Proof.
  intros Hc Hidx. unfold GetLog, GetLog_func1.
  destruct (transaction_query_healthy (SELECT_data_FROM_logs idx) c Hc)
    as (c' & -> & ?). exists c'. split; [|done].
  unfold SELECT_data_FROM_logs. rewrite uint64_arg_accepted by done.
  by destruct (logs _ !! idx).
Qed.

(** [GetLog] of an index the driver refuses. *)
Lemma GetLog_refused idx c :
  healthy c → ¬ idx < 2 ^ 63 → (GetLog idx c).1 = Err ErrHighBit.
Proof.
  intros Hc Hidx. unfold GetLog, GetLog_func1.
  destruct (transaction_query_healthy (SELECT_data_FROM_logs idx) c Hc)
    as (c' & -> & ?).
  unfold SELECT_data_FROM_logs. by rewrite uint64_arg_refused.
Qed.

Lemma StoreLogs_func1_healthy ls c w :
  healthy c → txn c = Some w →
  ∃ c', StoreLogs_func1 ls c =
          (match insert_each ls w with OK _ => OK tt | Err e => Err e end,
           c')
        ∧ tables c' = tables c ∧ healthy c'
        ∧ match insert_each ls w with
          | OK w' => txn c' = Some w'
          | Err _ => is_Some (txn c')
          end.
Proof.
  revert c w. induction ls as [|l ls IH]; intros c w Hc Hw; simpl.
  - exists c. by rewrite Hw.
  - destruct (encodeMsgPack l) as [b|e]; [|by exists c; rewrite Hw].
    unfold tx_Exec at 1. rewrite Hw. no_fault.
    destruct (INSERT_INTO_logs (Index l) b w) as [w'|e].
    + edestruct (IH (set_txn (Some w') (step (EvStmt None) c)) w')
        as (c' & -> & ? & ? & ?); eauto with engine.
    + edestruct (IH (step (EvStmt (Some e)) c) w)
        as (c' & -> & ? & ? & ?); eauto with engine.
Qed.

Lemma StoreLogs_healthy ls c :
  healthy c →
  ∃ c', StoreLogs ls c =
          (match insert_each ls (tables c) with
           | OK _ => OK tt
           | Err e => Err e
           end, c')
        ∧ tables c' = match insert_each ls (tables c) with
                      | OK t => t
                      | Err _ => tables c
                      end
        ∧ txn c' = None ∧ healthy c'.
Proof.
  intros Hc. unfold StoreLogs, transaction, db_Begin. no_fault.
  edestruct (StoreLogs_func1_healthy ls
               (set_txn (Some (tables c)) (step (EvBegin None) c)))
    as (c1 & -> & Ht & Hh & Hw); [eauto with engine|done|].
  destruct (insert_each ls (tables c)) as [t|e].
  - unfold tx_Commit. rewrite Hw. no_fault.
    eexists; split; [reflexivity|]. repeat split; eauto 10 with engine.
  - destruct Hw as [w Hw]. unfold tx_Rollback. rewrite Hw. no_fault.
    eexists; split; [reflexivity|]. repeat split; eauto 10 with engine.
Qed.

End LogStoreHealthy.

(** ** First and last index *)

Lemma least_nil l : least l = None ↔ l = [].
Proof. by destruct l. Qed.

Lemma greatest_nil l : greatest l = None ↔ l = [].
Proof. by destruct l. Qed.

Lemma least_spec l k :
  least l = Some k → k ∈ l ∧ ∀ j, j ∈ l → k ≤ j.
Proof.
  revert k. induction l as [|x l IH]; intros k; simpl; [done|].
  intros [= <-]. destruct (least l) as [a|] eqn:Ha; simpl.
  - destruct (IH a eq_refl) as [Hin Hle]. split.
    + destruct (Z.min_spec x a) as [[_ ->]|[_ ->]];
        [apply list_elem_of_here|by apply list_elem_of_further].
    + intros j [->|Hj]%elem_of_cons; [lia|]. specialize (Hle j Hj). lia.
  - apply least_nil in Ha as ->. split; [apply list_elem_of_here|].
    intros j [->|Hj]%elem_of_cons; [lia|]. by apply elem_of_nil in Hj.
Qed.

Lemma greatest_spec l k :
  greatest l = Some k → k ∈ l ∧ ∀ j, j ∈ l → j ≤ k.
Proof.
  revert k. induction l as [|x l IH]; intros k; simpl; [done|].
  intros [= <-]. destruct (greatest l) as [a|] eqn:Ha; simpl.
  - destruct (IH a eq_refl) as [Hin Hle]. split.
    + destruct (Z.max_spec x a) as [[_ ->]|[_ ->]];
        [by apply list_elem_of_further|apply list_elem_of_here].
    + intros j [->|Hj]%elem_of_cons; [lia|]. specialize (Hle j Hj). lia.
  - apply greatest_nil in Ha as ->. split; [apply list_elem_of_here|].
    intros j [->|Hj]%elem_of_cons; [lia|]. by apply elem_of_nil in Hj.
Qed.

Lemma elem_of_indices t i : i ∈ indices t ↔ is_Some (logs t !! i).
Proof.
  unfold indices. rewrite list_elem_of_fmap. split.
  - intros ([j b] & -> & Hjb). apply elem_of_map_to_list in Hjb. by exists b.
  - intros [b Hb]. exists (i, b). split; [done|].
    by apply elem_of_map_to_list.
Qed.

Lemma indices_nil t : indices t = [] ↔ logs t = ∅.
Proof.
  unfold indices. rewrite <- map_to_list_empty_iff. split.
  - apply fmap_nil_inv.
  - by intros ->.
Qed.

(** C5: on a working engine [FirstIndex] returns 0 and no error when the log
    is empty, and the smallest stored index otherwise. *)
Theorem FirstIndex_smallest_or_zero (c : Conn) :
  healthy c →
  (logs (tables c) = ∅ → (FirstIndex c).1 = OK 0) ∧
  (logs (tables c) ≠ ∅ →
   ∃ i, (FirstIndex c).1 = OK i ∧ is_Some (logs (tables c) !! i) ∧
        ∀ j, is_Some (logs (tables c) !! j) → i ≤ j).
Proof.
  intros Hc. destruct (FirstIndex_healthy c Hc) as (c' & -> & _). simpl.
  split.
  - intros He. apply indices_nil in He. by rewrite He.
  - intros Hne. destruct (least (indices (tables c))) as [i|] eqn:Hi.
    + apply least_spec in Hi as [Hin Hle]. exists i. simpl.
      split; [done|]. split; [by apply elem_of_indices|].
      intros j Hj. by apply Hle, elem_of_indices.
    + apply least_nil, indices_nil in Hi. done.
Qed.

(** C6: on a working engine [LastIndex] returns the largest stored index
    when the log is not empty; on an empty log it fails with the no-rows
    error of the query instead of returning 0. *)
Theorem LastIndex_largest_or_no_rows (c : Conn) :
  healthy c →
  (logs (tables c) = ∅ → (LastIndex c).1 = Err ErrNoRows) ∧
  (logs (tables c) ≠ ∅ →
   ∃ i, (LastIndex c).1 = OK i ∧ is_Some (logs (tables c) !! i) ∧
        ∀ j, is_Some (logs (tables c) !! j) → j ≤ i).
Proof.
  intros Hc. destruct (LastIndex_healthy c Hc) as (c' & -> & _). simpl.
  split.
  - intros He. apply indices_nil in He. by rewrite He.
  - intros Hne. destruct (greatest (indices (tables c))) as [i|] eqn:Hi.
    + apply greatest_spec in Hi as [Hin Hle]. exists i. simpl.
      split; [done|]. split; [by apply elem_of_indices|].
      intros j Hj. by apply Hle, elem_of_indices.
    + apply greatest_nil, indices_nil in Hi. done.
Qed.

(** ** Storing, reading and deleting log entries *)

Section LogRepository.
Context `{Codec}.

Lemma represents_empty t : logs t = ∅ → represents ∅ t.
Proof. intros Ht i. by rewrite lookup_empty, Ht, lookup_empty. Qed.

Lemma represents_insert m t l b :
  represents m t → decodeMsgPack b = OK l →
  represents (<[Index l := l]> m)
    {| logs := <[Index l := b]> (logs t); kv := kv t |}.
Proof.
  intros Hm Hb i. simpl. destruct (decide (Index l = i)) as [<-|Hne].
  - rewrite !lookup_insert_eq. eauto.
  - rewrite !lookup_insert_ne by done. apply Hm.
Qed.

Lemma represents_delete m t min max :
  represents m t →
  represents (filter (λ row, ¬ (min ≤ row.1 ∧ row.1 ≤ max)) m)
    {| logs := filter (λ row, ¬ (min ≤ row.1 ∧ row.1 ≤ max)) (logs t);
       kv := kv t |}.
Proof.
  intros Hm i. specialize (Hm i). simpl.
  destruct (decide (min ≤ i ∧ i ≤ max)) as [Hin|Hout].
  - rewrite !map_lookup_filter_None_2; [done|right..]; simpl; tauto.
  - destruct (m !! i) as [l|] eqn:Hl.
    + destruct Hm as (Hi & b & Hb & Hd).
      rewrite (map_lookup_filter_Some_2 _ _ _ l) by done.
      split; [done|]. exists b. split; [|done].
      by apply map_lookup_filter_Some_2.
    + rewrite !map_lookup_filter_None_2; [done|by left..].
Qed.

Lemma insert_each_fresh ls m t :
  represents m t →
  (∀ l, l ∈ ls → Index l < 2 ^ 63) →
  NoDup (Index <$> ls) →
  (∀ l, l ∈ ls → m !! Index l = None) →
  (∀ l, l ∈ ls → round_trips l) →
  ∃ t', insert_each ls t = OK t' ∧ kv t' = kv t ∧
        represents (foldl (λ m l, <[Index l := l]> m) m ls) t'.
Proof.
  revert m t. induction ls as [|l ls IH]; intros m t Hm Hlt Hnd Hfresh Hrt.
  - by exists t.
  - simpl. destruct (Hrt l) as (b & -> & Hdec); [apply list_elem_of_here|].
    pose proof (Hm (Index l)) as Hl.
    rewrite (Hfresh l) in Hl by apply list_elem_of_here.
    rewrite INSERT_INTO_logs_fresh; [|apply Hlt, list_elem_of_here|done].
    rewrite fmap_cons in Hnd. apply NoDup_cons in Hnd as [Hnotin Hnd].
    edestruct (IH (<[Index l := l]> m)
                 {| logs := <[Index l := b]> (logs t); kv := kv t |})
      as (t' & Ht' & Hkv & Hm').
    + by apply represents_insert.
    + intros l' Hl'. by apply Hlt, list_elem_of_further.
    + done.
    + intros l' Hl'. rewrite lookup_insert_ne.
      * by apply Hfresh, list_elem_of_further.
      * intros Heq. apply Hnotin. rewrite Heq. by apply list_elem_of_fmap_2.
    + intros l' Hl'. by apply Hrt, list_elem_of_further.
    + by exists t'.
Qed.

Lemma GetLog_represents m c i :
  healthy c → represents m (tables c) → i < 2 ^ 63 →
  (GetLog i c).1 = match m !! i with
                   | Some l => OK l
                   | None => Err ErrLogNotFound
                   end.
Proof.
  intros Hc Hm Hi. destruct (GetLog_healthy i c Hc Hi) as (c' & -> & _).
  simpl.
  specialize (Hm i). destruct (m !! i) as [l|].
  - by destruct Hm as (_ & b & -> & ->).
  - by rewrite Hm.
Qed.

Lemma do_call_represents k m c :
  healthy c → represents m (tables c) →
  accepted k →
  NoDup (Index <$> entries k) →
  (∀ l, l ∈ entries k → m !! Index l = None) →
  (∀ l, l ∈ entries k → round_trips l) →
  ∃ c', do_call k c = (OK tt, c') ∧ healthy c' ∧
        represents (log_after k m) (tables c').
Proof.
  intros Hc Hm Hacc Hnd Hfresh Hrt.
  assert (∀ ls, ls = entries k →
    (∀ l, l ∈ entries k → 0 ≤ Index l < 2 ^ 63) →
    ∃ c', StoreLogs ls c = (OK tt, c') ∧ healthy c' ∧
          represents (foldl (λ m l, <[Index l := l]> m) m ls) (tables c'))
    as Hstore.
  { intros ls -> Hlt.
    destruct (insert_each_fresh (entries k) m (tables c))
      as (t' & Ht' & _ & Hm');
      [done|by (intros l Hl; apply Hlt)|done..|].
    destruct (StoreLogs_healthy (entries k) c Hc) as (c' & Hr & Ht & _ & ?).
    rewrite Ht' in Hr, Ht. exists c'. by rewrite Ht. }
  destruct k as [l|ls|min max]; simpl.
  - by apply (Hstore [l]).
  - by apply Hstore.
  - destruct Hacc as [[_ Hmin] [_ Hmax]].
    destruct (DeleteRange_healthy min max c Hc Hmin Hmax)
      as (c' & -> & Ht & _ & ?).
    exists c'. split; [done|]. split; [done|].
    rewrite Ht. by apply represents_delete.
Qed.

Lemma do_calls_represents h m c :
  healthy c → represents m (tables c) →
  (∀ k, k ∈ h → accepted k) →
  unique_indices h m →
  (∀ k l, k ∈ h → l ∈ entries k → round_trips l) →
  ∃ c', do_calls h c = (OK tt, c') ∧ healthy c' ∧
        represents (foldl (λ m k, log_after k m) m h) (tables c').
Proof.
  revert m c. induction h as [|k h IH]; intros m c Hc Hm Hacc Hu Hrt.
  - by exists c.
  - destruct Hu as (Hnd & Hfresh & Hu). simpl. unfold bind.
    destruct (do_call_represents k m c) as (c1 & -> & Hc1 & Hm1); try done.
    { apply Hacc, list_elem_of_here. }
    { intros l Hl. apply (Hrt k l); [apply list_elem_of_here|done]. }
    apply IH; try done.
    + intros k' Hk'. by apply Hacc, list_elem_of_further.
    + intros k' l Hk'. apply Hrt. by apply list_elem_of_further.
Qed.

End LogRepository.

(** *** The log of a history *)

Lemma foldl_insert_other (ls : list Log) (m : gmap Z Log) i :
  (∀ l, l ∈ ls → Index l ≠ i) →
  foldl (λ m l, <[Index l := l]> m) m ls !! i = m !! i.
Proof.
  revert m. induction ls as [|l ls IH]; intros m Hne; simpl; [done|].
  rewrite IH by (intros l' Hl'; by apply Hne, list_elem_of_further).
  apply lookup_insert_ne, Hne, list_elem_of_here.
Qed.

Lemma foldl_insert_stored (ls : list Log) (m : gmap Z Log) l :
  NoDup (Index <$> ls) → l ∈ ls →
  foldl (λ m l, <[Index l := l]> m) m ls !! Index l = Some l.
Proof.
  revert m. induction ls as [|l0 ls IH]; intros m Hnd Hl; simpl.
  - by apply elem_of_nil in Hl.
  - rewrite fmap_cons in Hnd. apply NoDup_cons in Hnd as [Hnotin Hnd].
    apply elem_of_cons in Hl as [->|Hl]; [|by apply IH].
    rewrite foldl_insert_other; [apply lookup_insert_eq|].
    intros l' Hl' Heq. apply Hnotin. rewrite <- Heq.
    by apply list_elem_of_fmap_2.
Qed.

(** A store call of fresh indices leaves the entries of the log alone. *)
Lemma log_after_store_keeps k m i l :
  match k with Call_DeleteRange _ _ => False | _ => True end →
  (∀ l', l' ∈ entries k → m !! Index l' = None) →
  m !! i = Some l → log_after k m !! i = Some l.
Proof.
  intros Hk Hfresh Hi.
  assert (foldl (λ m l, <[Index l := l]> m) m (entries k) !! i = Some l)
    as Hkeep.
  { rewrite foldl_insert_other; [done|].
    intros l' Hl' Heq. specialize (Hfresh l' Hl'). congruence. }
  by destruct k.
Qed.

Lemma log_after_store_stored k m l :
  match k with Call_DeleteRange _ _ => False | _ => True end →
  NoDup (Index <$> entries k) → l ∈ entries k →
  log_after k m !! Index l = Some l.
Proof.
  intros Hk Hnd Hl.
  pose proof (foldl_insert_stored (entries k) m l Hnd Hl) as Hst.
  by destruct k.
Qed.

Lemma log_of_keeps h m i l :
  unique_indices h m → stores_only h →
  m !! i = Some l → foldl (λ m k, log_after k m) m h !! i = Some l.
Proof.
  revert m. induction h as [|k h IH]; intros m Hu Hs Hi; simpl; [done|].
  destruct Hu as (_ & Hfresh & Hu). apply IH; [done| |].
  - intros k' Hk'. by apply Hs, list_elem_of_further.
  - apply log_after_store_keeps; [|done..]. apply Hs, list_elem_of_here.
Qed.

(** Without deletions and with unique indices, the log holds every entry
    that was stored, at its index. *)
Lemma log_of_stored h m k l :
  unique_indices h m → stores_only h →
  k ∈ h → l ∈ entries k →
  foldl (λ m k, log_after k m) m h !! Index l = Some l.
Proof.
  revert m. induction h as [|k0 h IH]; intros m Hu Hs Hk Hl; simpl.
  - by apply elem_of_nil in Hk.
  - destruct Hu as (Hnd & Hfresh & Hu).
    assert (stores_only h) as Hs'
      by (intros k' Hk'; by apply Hs, list_elem_of_further).
    apply elem_of_cons in Hk as [->|Hk]; [|by apply IH].
    apply log_of_keeps; [done..|].
    apply log_after_store_stored; [|done..]. apply Hs, list_elem_of_here.
Qed.

(** The log holds nothing at an index that no call stored. *)
Lemma log_of_never_stored h m i :
  (∀ k l, k ∈ h → l ∈ entries k → Index l ≠ i) →
  m !! i = None → foldl (λ m k, log_after k m) m h !! i = None.
Proof.
  revert m. induction h as [|k h IH]; intros m Hne Hi; simpl; [done|].
  apply IH.
  - intros k' l Hk'. apply Hne. by apply list_elem_of_further.
  - assert (foldl (λ m l, <[Index l := l]> m) m (entries k) !! i = None)
      as Hst.
    { rewrite foldl_insert_other; [done|].
      intros l Hl. apply (Hne k l); [apply list_elem_of_here|done]. }
    destruct k as [l|ls|min max]; [done..|]. simpl.
    apply map_lookup_filter_None_2. by left.
Qed.

(** C3, amended: along a history of [StoreLog], [StoreLogs] and
    [DeleteRange] calls on a new store whose indices are below 2^63, in
    which no call stores an index twice or an index that is present, with
    entries that survive the codec, every call succeeds and afterwards
    [GetLog i], for [i] below 2^63, returns exactly the entry the log holds
    at [i], and [raft.ErrLogNotFound] when it holds none.  In particular,
    without deletions [GetLog] returns every entry that was stored, at its
    index, and whatever the history [GetLog i] is [raft.ErrLogNotFound] for
    an index below 2^63 that no call stored. *)
Theorem GetLog_returns_stored_entry `{Codec} (h : list call) (c0 : Conn) :
  healthy c0 → logs (tables c0) = ∅ →
  (∀ k, k ∈ h → accepted k) →
  unique_indices h ∅ →
  (∀ k l, k ∈ h → l ∈ entries k → round_trips l) →
  ∃ c, do_calls h c0 = (OK tt, c) ∧
       (∀ i, 0 ≤ i < 2 ^ 63 →
             (GetLog i c).1 = match log_of h !! i with
                              | Some l => OK l
                              | None => Err ErrLogNotFound
                              end) ∧
       (stores_only h →
        ∀ k l, k ∈ h → l ∈ entries k → (GetLog (Index l) c).1 = OK l) ∧
       (∀ i, 0 ≤ i < 2 ^ 63 →
             (∀ k l, k ∈ h → l ∈ entries k → Index l ≠ i) →
             (GetLog i c).1 = Err ErrLogNotFound).
Proof.
  intros Hc0 Hempty Hacc Hu Hrt.
  destruct (do_calls_represents h ∅ c0) as (c & Hrun & Hc & Hm); try done.
  { by apply represents_empty. }
  assert (∀ i, i < 2 ^ 63 →
               (GetLog i c).1 = match log_of h !! i with
                                | Some l => OK l
                                | None => Err ErrLogNotFound
                                end) as Hget
    by (intros i Hi; by apply GetLog_represents).
  exists c. split; [done|]. split; [|split].
  - intros i [_ Hi]. by apply Hget.
  - intros Hs k l Hk Hl.
    assert (Index l < 2 ^ 63) as Hlt.
    { specialize (Hacc k Hk). specialize (Hs k Hk).
      destruct k; try done; by apply Hacc. }
    rewrite Hget by done. unfold log_of.
    by rewrite (log_of_stored h ∅ k l).
  - intros i [_ Hi] Hne. rewrite Hget by done. unfold log_of.
    by rewrite log_of_never_stored.
Qed.

(** C3, as stated, fails above the range of the column: [GetLog] of the
    index 2^63, which was never stored, fails with the error of the refused
    argument, not with [raft.ErrLogNotFound]; and after [StoreLog] of an
    entry with that index, which returns nil, [GetLog] does not return the
    entry. *)
Lemma GetLog_high_index_not_LogNotFound :
  (@GetLog layout_codec (2 ^ 63) (new_store [])).1 = Err ErrHighBit ∧
  ErrHighBit ≠ ErrLogNotFound ∧
  (@StoreLog layout_codec (createRaftLog (2 ^ 63) "log") (new_store [])).1
    = OK tt ∧
  (@GetLog layout_codec (2 ^ 63)
     (@StoreLog layout_codec (createRaftLog (2 ^ 63) "log")
        (new_store [])).2).1 = Err ErrHighBit.
Proof. vm_compute. repeat split. discriminate. Qed.

(** C4: on a working engine [DeleteRange min max], with bounds that are
    [uint64] values below 2^63, succeeds; afterwards [GetLog] fails with
    [raft.ErrLogNotFound] at every index of the closed interval and answers
    as before at every index below [min] or above [max]. *)
Theorem DeleteRange_removes_exactly `{Codec} (min max : Z) (c : Conn) :
  healthy c → 0 ≤ min < 2 ^ 63 → 0 ≤ max < 2 ^ 63 →
  ∃ c', DeleteRange min max c = (OK tt, c') ∧
        ∀ i, (min ≤ i ∧ i ≤ max → (GetLog i c').1 = Err ErrLogNotFound) ∧
             (i < min ∨ max < i → (GetLog i c').1 = (GetLog i c).1).
Proof.
  intros Hc [_ Hmin] [_ Hmax].
  destruct (DeleteRange_healthy min max c Hc Hmin Hmax)
    as (c' & Hr & Ht & _ & Hc').
  exists c'. split; [done|]. intros i.
  destruct (decide (i < 2 ^ 63)) as [Hi|Hi].
  - destruct (GetLog_healthy i c' Hc' Hi) as (c1 & -> & _).
    destruct (GetLog_healthy i c Hc Hi) as (c2 & -> & _).
    rewrite Ht. simpl. split.
    + intros Hin. rewrite map_lookup_filter_None_2; [done|].
      right. intros b _. simpl. tauto.
    + intros Hout. destruct (logs (tables c) !! i) as [b|] eqn:Hb.
      * rewrite (map_lookup_filter_Some_2 _ _ _ b); [done..|]. simpl. lia.
      * rewrite map_lookup_filter_None_2; [done|by left].
  - split; [lia|]. intros _.
    by rewrite (GetLog_refused i c' Hc' Hi), (GetLog_refused i c Hc Hi).
Qed.

(** ** The key/value repository *)

Lemma do_sets_healthy sets c :
  healthy c →
  ∃ c', do_sets sets c = (OK tt, c') ∧ healthy c' ∧
        ∀ k, k ∉ sets.*1 → kv (tables c') !! k = kv (tables c) !! k.
Proof.
  revert c. induction sets as [|[k0 v0] sets IH]; intros c Hc.
  - by exists c.
  - simpl. unfold bind.
    destruct (Set_healthy k0 v0 c Hc) as (c1 & -> & Ht & _ & Hc1).
    destruct (IH c1 Hc1) as (c' & -> & Hc' & Hkv).
    exists c'. split; [done|]. split; [done|].
    intros k [Hne Hk]%not_elem_of_cons. rewrite Hkv by done.
    rewrite Ht. simpl. by rewrite lookup_insert_ne.
Qed.


(** ** Unsigned integers in the key/value repository *)

Lemma Z_of_byte_of_Z z : Z_of_byte (byte_of_Z z) = z mod 256.
Proof.
  unfold Z_of_byte, byte_of_Z.
  assert (0 ≤ z mod 256 < 256) as Hz by (apply Z.mod_pos_bound; lia).
  destruct (Byte.of_N (Z.to_N (z mod 256))) as [b|] eqn:Hb.
  - apply Byte.to_of_N in Hb. rewrite Hb. lia.
  - apply Byte.of_N_None_iff in Hb. lia.
Qed.

Lemma length_big_endian w u : length (big_endian w u) = w.
Proof. induction w as [|w IH]; simpl; [done|]. by rewrite IH. Qed.

(** Reading back [w] big-endian bytes of [u] after [acc] appends the low
    [w] bytes of [u] to [acc]. *)
Lemma foldl_big_endian w u acc :
  foldl (λ acc x, acc * 256 + Z_of_byte x) acc (big_endian w u) =
  acc * 256 ^ Z.of_nat w + u mod 256 ^ Z.of_nat w.
Proof.
  revert acc. induction w as [|w IH]; intros acc.
  - simpl. rewrite Z.mod_1_r. lia.
  - cbn [big_endian foldl]. rewrite IH, Z_of_byte_of_Z.
    rewrite Nat2Z.inj_succ, Z.pow_succ_r by lia.
    assert (0 < 256 ^ Z.of_nat w) as Hpos by (apply Z.pow_pos_nonneg; lia).
    rewrite (Z.mul_comm 256 (256 ^ Z.of_nat w)).
    rewrite (Z.rem_mul_r u (256 ^ Z.of_nat w) 256) by lia. lia.
Qed.

Lemma bytesToUint64_uint64ToBytes n :
  0 ≤ n < 2 ^ 64 → bytesToUint64 (uint64ToBytes n) = n.
Proof.
  intros Hn. unfold bytesToUint64, uint64ToBytes, from_big_endian.
  rewrite take_ge by (by rewrite length_big_endian).
  rewrite foldl_big_endian. change (256 ^ Z.of_nat 8) with (2 ^ 64).
  rewrite Z.mod_small by done. lia.
Qed.

Lemma from_big_endian_big_endian w u :
  from_big_endian (big_endian w u) = u mod 256 ^ Z.of_nat w.
Proof. unfold from_big_endian. rewrite foldl_big_endian. lia. Qed.

(** The fields of a buffer in the fixed layout. *)
Lemma layout_fields (A B C D rest : bytes) :
  length A = 8%nat → length B = 8%nat → length C = 1%nat →
  length D = 8%nat →
  take 8 (A ++ B ++ C ++ D ++ rest) = A ∧
  take 8 (drop 8 (A ++ B ++ C ++ D ++ rest)) = B ∧
  take 1 (drop 16 (A ++ B ++ C ++ D ++ rest)) = C ∧
  take 8 (drop 17 (A ++ B ++ C ++ D ++ rest)) = D ∧
  drop 25 (A ++ B ++ C ++ D ++ rest) = rest.
Proof.
  intros HA HB HC HD.
  do 9 (destruct A as [|? A]; try done).
  do 9 (destruct B as [|? B]; try done).
  do 2 (destruct C as [|? C]; try done).
  do 9 (destruct D as [|? D]; try done).
Qed.

(** The fixed layout is a codec for the entries that fit it. *)
Lemma layout_round_trips l : fits_layout l → @round_trips layout_codec l.
Proof.
  intros (HI & HT & HTy & HD). unfold round_trips.
  change (@encodeMsgPack layout_codec) with layout_encode.
  change (@decodeMsgPack layout_codec) with layout_decode.
  eexists. split; [reflexivity|]. unfold layout_decode.
  destruct (layout_fields (big_endian 8 (Index l)) (big_endian 8 (Term l))
              (big_endian 1 (Type_ l))
              (big_endian 8 (Z.of_nat (length (Data l))))
              (Data l ++ Extensions l))
    as (HfA & HfB & HfC & HfD & Hrest); try apply length_big_endian.
  case_decide as Hlen.
  { rewrite !length_app, !length_big_endian in Hlen. lia. }
  rewrite <- (drop_drop _ _ 25), HfA, HfB, HfC, HfD, Hrest.
  rewrite !from_big_endian_big_endian.
  change (256 ^ Z.of_nat 8) with (2 ^ 64).
  change (256 ^ Z.of_nat 1) with (2 ^ 8).
  rewrite !Z.mod_small by lia. rewrite Nat2Z.id.
  rewrite take_app_length, drop_app_length. by destruct l.
Qed.


(** ** Transactions *)

Lemma scoped_tx_Exec st : scoped (tx_Exec st).
Proof.
  intros c w Hw. unfold tx_Exec. rewrite Hw.
  destruct (next_fault c) as [e|]; [|destruct (st w) as [w'|e]]; simpl.
  - exists w, [EvStmt (Some e)]. by repeat constructor.
  - exists w', [EvStmt None]. by repeat constructor.
  - exists w, [EvStmt (Some e)]. by repeat constructor.
Qed.

Lemma scoped_tx_QueryRow_Scan {A} (q : query A) : scoped (tx_QueryRow_Scan q).
Proof.
  intros c w Hw. unfold tx_QueryRow_Scan. rewrite Hw.
  destruct (next_fault c) as [e|]; [|destruct (q w) as [[a|]|e]]; simpl.
  - exists w, [EvStmt (Some e)]. by repeat constructor.
  - exists w, [EvStmt None]. by repeat constructor.
  - exists w, [EvStmt (Some ErrNoRows)]. by repeat constructor.
  - exists w, [EvStmt (Some e)]. by repeat constructor.
Qed.

Lemma scoped_StoreLogs_func1 `{Codec} ls : scoped (StoreLogs_func1 ls).
Proof.
  induction ls as [|l ls IH]; intros c w Hw; simpl.
  - exists w, []. by rewrite app_nil_r.
  - destruct (encodeMsgPack l) as [b|e]; simpl.
    + destruct (scoped_tx_Exec (INSERT_INTO_logs (Index l) b) c w Hw)
        as (w1 & s1 & Hw1 & Ht1 & Htr1 & Hs1).
      destruct (tx_Exec (INSERT_INTO_logs (Index l) b) c) as [r c1].
      simpl in *.
      destruct (IH c1 w1 Hw1) as (w2 & s2 & Hw2 & Ht2 & Htr2 & Hs2).
      exists w2, (s1 ++ s2). rewrite Hw2, Ht2, Htr2, Htr1, Ht1.
      rewrite app_assoc. repeat split. by apply Forall_app.
    + exists w, []. by rewrite app_nil_r.
Qed.

(** The helper itself, around any closure that stays inside its
    transaction. *)
Lemma transaction_shape {A} (f : M A) c :
  scoped f → txn c = None →
  txn (returned (transaction f) c).2 = None ∧
  match next_fault c with
  | Some e =>
      trace (returned (transaction f) c).2 = trace c ++ [EvBegin (Some e)] ∧
      tables (returned (transaction f) c).2 = tables c ∧
      (returned (transaction f) c).1 = Some e
  | None =>
      ∃ stmts last,
        trace (returned (transaction f) c).2 =
          trace c ++ EvBegin None :: stmts ++ [last] ∧
        Forall is_stmt stmts ∧
        tx_end (returned f (db_Begin c).2).1 last
               (returned (transaction f) c).1 ∧
        (last = EvCommit None →
         Some (tables (returned (transaction f) c).2) =
           txn (returned f (db_Begin c).2).2) ∧
        (last ≠ EvCommit None →
         tables (returned (transaction f) c).2 = tables c)
  end.
Proof.
  intros Hf Hc. unfold returned, transaction, db_Begin.
  destruct (next_fault c) as [e|] eqn:Hnf; simpl; [done|].
  destruct (Hf (set_txn (Some (tables c)) (step (EvBegin None) c)) (tables c))
    as (w & stmts & Hw & Ht & Htr & Hs); [done|].
  destruct (f _) as [[a|err] cf]; simpl in *.
  - unfold tx_Commit. rewrite Hw.
    destruct (next_fault cf) as [e|]; simpl; (split; [done|]);
      eexists stmts, _; rewrite Htr, <- !app_assoc;
      (split; [reflexivity|]); (split; [done|]);
      (split; [constructor|]); split; try done;
      intros _; by rewrite Ht.
  - unfold tx_Rollback. rewrite Hw.
    destruct (next_fault cf) as [e|]; simpl; (split; [done|]);
      eexists stmts, _; rewrite Htr, <- !app_assoc;
      (split; [reflexivity|]); (split; [done|]);
      (split; [constructor|]); split; try done;
      intros _; by rewrite Ht.
Qed.

Lemma errors_Is_refl e : errors_Is e e = true.
Proof. destruct e; cbn [errors_Is]; by rewrite bool_decide_eq_true_2. Qed.

(** The error of a transaction whose rollback failed holds the closure's
    error and the rollback's. *)
Lemma tx_end_rollback_failed ferr rberr txerr :
  tx_end ferr (EvRollback (Some rberr)) txerr →
  ∃ err e, ferr = Some err ∧ txerr = Some e ∧
           errors_Is e err = true ∧ errors_Is e rberr = true.
Proof.
  inversion 1; subst. eexists _, _. split; [done|]. split; [done|].
  simpl. rewrite !errors_Is_refl. by rewrite !orb_true_r.
Qed.

(** Every operation is [transaction] around its closure, followed at most by
    a look at the error. *)
Lemma perform_via_transaction `{Codec} (o : operation) c :
  ∃ (A : Type) (f : M A),
    scoped f ∧ closure o = returned f ∧
    (perform o c).2 = (returned (transaction f) c).2 ∧
    (passes_error_on o = true →
     (perform o c).1 = (returned (transaction f) c).1) ∧
    (∀ e, (returned (transaction f) c).1 = Some e →
          errors_Is e ErrNoRows = false → (perform o c).1 = Some e).
Proof.
  destruct o; simpl.
  - exists Z, FirstIndex_func1. split; [apply scoped_tx_QueryRow_Scan|].
    split; [done|]. unfold returned, FirstIndex.
    destruct (transaction _ c) as [[a|e] c']; simpl; [done|].
    destruct (errors_Is e ErrNoRows) eqn:He; simpl;
      repeat split; try done; intros; congruence.
  - exists Z, LastIndex_func1. split; [apply scoped_tx_QueryRow_Scan|].
    split; [done|]. unfold returned, LastIndex.
    by destruct (transaction _ c) as [[a|e] c'].
  - exists bytes, (GetLog_func1 idx). split; [apply scoped_tx_QueryRow_Scan|].
    split; [done|]. unfold returned, GetLog.
    destruct (transaction _ c) as [[a|e] c']; simpl; [done|].
    destruct (errors_Is e ErrNoRows) eqn:He; simpl;
      repeat split; try done; intros; congruence.
  - exists unit, (StoreLogs_func1 [log]). split; [apply scoped_StoreLogs_func1|].
    split; [done|]. unfold returned, StoreLog, StoreLogs.
    by destruct (transaction _ c) as [[a|e] c'].
  - exists unit, (StoreLogs_func1 logs0).
    split; [apply scoped_StoreLogs_func1|].
    split; [done|]. unfold returned, StoreLogs.
    by destruct (transaction _ c) as [[a|e] c'].
  - exists unit, (DeleteRange_func1 min max). split; [apply scoped_tx_Exec|].
    split; [done|]. unfold returned, DeleteRange.
    by destruct (transaction _ c) as [[a|e] c'].
  - exists unit, (Set_func1 k v). split; [apply scoped_tx_Exec|].
    split; [done|]. unfold returned, Set_.
    by destruct (transaction _ c) as [[a|e] c'].
  - exists bytes, (Get_func1 k). split; [apply scoped_tx_QueryRow_Scan|].
    split; [done|]. unfold returned, Get.
    destruct (transaction _ c) as [[a|e] c']; simpl; [done|].
    destruct (errors_Is e ErrNoRows) eqn:He; simpl;
      repeat split; try done; intros; congruence.
  - exists unit, (Set_func1 key (uint64ToBytes val)).
    split; [apply scoped_tx_Exec|].
    split; [done|]. unfold returned, SetUint64, Set_.
    by destruct (transaction _ c) as [[a|e] c'].
  - exists bytes, (Get_func1 key). split; [apply scoped_tx_QueryRow_Scan|].
    split; [done|]. unfold returned, GetUint64, bind, Get.
    destruct (transaction _ c) as [[a|e] c']; simpl; [done|].
    destruct (errors_Is e ErrNoRows) eqn:He; simpl;
      repeat split; try done; intros; congruence.
Qed.

(** X19: each of the ten log-store and stable-store operations runs in one
    transaction.  When [Begin] fails nothing else is called and
    [transaction] returns its error.  Otherwise the closure issues its
    statements and the transaction is committed exactly when the closure
    returned nil and rolled back when it returned an error; only a
    successful commit changes the committed contents; when the rollback
    fails too, [transaction] returns the closure's error joined with the
    wrapped rollback error.  The operations that do not test for
    [sql.ErrNoRows] return the error of [transaction] as it is, the others
    return it when it is not a no-rows error, and no transaction is open
    when the operation returns. *)
Theorem operation_runs_in_one_transaction `{Codec} (o : operation) (c : Conn) :
  txn c = None →
  txn (perform o c).2 = None ∧
  ∃ txerr,
    (passes_error_on o = true → (perform o c).1 = txerr) ∧
    (∀ e, txerr = Some e → errors_Is e ErrNoRows = false →
          (perform o c).1 = Some e) ∧
    match next_fault c with
    | Some e =>
        txerr = Some e ∧
        trace (perform o c).2 = trace c ++ [EvBegin (Some e)] ∧
        tables (perform o c).2 = tables c
    | None =>
        ∃ stmts last,
          trace (perform o c).2 = trace c ++ EvBegin None :: stmts ++ [last] ∧
          Forall is_stmt stmts ∧
          tx_end (closure o (db_Begin c).2).1 last txerr ∧
          (last = EvCommit None →
           Some (tables (perform o c).2) = txn (closure o (db_Begin c).2).2) ∧
          (last ≠ EvCommit None → tables (perform o c).2 = tables c) ∧
          (∀ rberr, last = EvRollback (Some rberr) →
             ∃ err e, (closure o (db_Begin c).2).1 = Some err ∧
                      txerr = Some e ∧
                      errors_Is e err = true ∧ errors_Is e rberr = true)
    end.
Proof.
  intros Hc.
  destruct (perform_via_transaction o c)
    as (A & f & Hf & Hcl & Hst & Hpass & Hguard).
  destruct (transaction_shape f c Hf Hc) as [Hdone Hshape].
  rewrite Hst, Hcl. split; [done|].
  exists (returned (transaction f) c).1.
  split; [done|]. split; [done|].
  destruct (next_fault c) as [e|] eqn:Hnf.
  - by destruct Hshape as (Htr & Ht & Herr).
  - destruct Hshape as (stmts & last & Htr & Hs & Hend & Hok & Hko).
    exists stmts, last. repeat split; try done.
    intros rberr ->. by apply tx_end_rollback_failed.
Qed.

(** C9: the code at a failing input.  On an empty log, with an engine whose
    rollback fails, the closure of [FirstIndex] returns [sql.ErrNoRows], the
    rollback returns its own error, [transaction] joins the two, and
    [FirstIndex] returns 0 and no error at all; [GetLog] and [Get] return
    their not-found errors alone: the rollback error is dropped. *)
Lemma FirstIndex_drops_rollback_error :
  (FirstIndex store_failing_third_call).1 = OK 0 ∧
  trace (FirstIndex store_failing_third_call).2 =
    [EvBegin None; EvStmt (Some ErrNoRows);
     EvRollback (Some (ErrEngine "disk I/O error"))] ∧
  (@GetLog layout_codec 1 store_failing_third_call).1 = Err ErrLogNotFound ∧
  (Get [x6b] store_failing_third_call).1 = Err ErrKeyNotFound ∧
  errors_Is ErrLogNotFound (ErrEngine "disk I/O error") = false ∧
  errors_Is ErrKeyNotFound (ErrEngine "disk I/O error") = false.
Proof. vm_compute. repeat split. Qed.

(** [LastIndex] has no such test: at the same store it returns both
    errors. *)
Example LastIndex_returns_both_errors :
  (LastIndex store_failing_third_call).1 =
    Err (Join ErrNoRows
           (Errorf "rollback failed: " (ErrEngine "disk I/O error"))).
Proof. reflexivity. Qed.

(** ** Appending entries *)

(** C10: [StoreLog e] is [StoreLogs [e]]: the same error and the same
    store. *)
Theorem StoreLog_is_StoreLogs_of_one `{Codec} (e : Log) (c : Conn) :
  StoreLog e c = StoreLogs [e] c ∧
  perform (Op_StoreLog e) c = perform (Op_StoreLogs [e]) c.
Proof. done. Qed.

Section Appending.
Context `{Codec}.

Lemma insert_each_encodable ls t :
  (∀ l, l ∈ ls → ∃ b, encodeMsgPack l = OK b) →
  ∃ t', insert_each ls t = OK t'.
Proof.
  revert t. induction ls as [|l ls IH]; intros t Henc; simpl; [by eexists|].
  destruct (Henc l) as [b ->]; [apply list_elem_of_here|].
  apply IH. intros l' Hl'. by apply Henc, list_elem_of_further.
Qed.

(** Whatever the inserts did, [StoreLogs] returns nil when every entry
    encodes and the engine is healthy. *)
Lemma StoreLogs_returns_nil ls c :
  healthy c →
  (∀ l, l ∈ ls → ∃ b, encodeMsgPack l = OK b) →
  (StoreLogs ls c).1 = OK tt.
Proof.
  intros Hc Henc. destruct (StoreLogs_healthy ls c Hc) as (c' & -> & _).
  by destruct (insert_each_encodable ls (tables c) Henc) as [t' ->].
Qed.

(** No insert replaces a row. *)
Lemma insert_each_keeps_rows ls t t' i b :
  logs t !! i = Some b → insert_each ls t = OK t' → logs t' !! i = Some b.
Proof.
  revert t. induction ls as [|l ls IH]; intros t Hi; simpl.
  - by intros [= <-].
  - destruct (encodeMsgPack l) as [v|e]; [|done].
    apply IH.
    destruct (INSERT_INTO_logs (Index l) v t) as [t1|e] eqn:Hins; [|done].
    apply INSERT_INTO_logs_OK in Hins as (_ & Hold & ->). simpl.
    rewrite lookup_insert_ne; [done|]. intros Heq. rewrite Heq in Hold.
    congruence.
Qed.

(** When the closure of [StoreLogs] fails, on an entry that does not
    encode, nothing is stored. *)
Lemma StoreLogs_error_stores_nothing ls c e :
  healthy c → (StoreLogs ls c).1 = Err e →
  tables (StoreLogs ls c).2 = tables c.
Proof.
  intros Hc. destruct (StoreLogs_healthy ls c Hc) as (c' & -> & Ht & _).
  simpl. rewrite Ht. by destruct (insert_each ls (tables c)).
Qed.

End Appending.

(** C1: the code at a failing input.  A store holds index 2; [StoreLogs] is
    given entries with indices 1, 2 and 3.  The insert of the second entry
    fails on the primary key, the error is dropped, the transaction is
    committed and [StoreLogs] returns nil: the first and third entries are
    stored, the second is not. *)
Theorem StoreLogs_swallows_insert_error :
  (@StoreLogs layout_codec [log1; createRaftLog 2 "other"; log3]
     store_with_log2).1 = OK tt ∧
  trace (@StoreLogs layout_codec [log1; createRaftLog 2 "other"; log3]
           store_with_log2).2 =
    trace store_with_log2 ++
    [EvBegin None; EvStmt None; EvStmt (Some ErrConstraint); EvStmt None;
     EvCommit None] ∧
  (@GetLog layout_codec 1
     (@StoreLogs layout_codec [log1; createRaftLog 2 "other"; log3]
        store_with_log2).2).1 = OK log1 ∧
  (@GetLog layout_codec 2
     (@StoreLogs layout_codec [log1; createRaftLog 2 "other"; log3]
        store_with_log2).2).1 = OK log2 ∧
  (@GetLog layout_codec 3
     (@StoreLogs layout_codec [log1; createRaftLog 2 "other"; log3]
        store_with_log2).2).1 = OK log3.
Proof. vm_compute. repeat split. Qed.

(** C2: the code at a failing input.  A store holds an entry at index 2;
    [StoreLog] of another entry with index 2 returns nil, not an error.  The
    stored entry stays as it was. *)
Theorem StoreLog_same_index_returns_nil :
  (@StoreLog layout_codec (createRaftLog 2 "other") store_with_log2).1
    = OK tt ∧
  (@GetLog layout_codec 2 store_with_log2).1 = OK log2 ∧
  (@GetLog layout_codec 2
     (@StoreLog layout_codec (createRaftLog 2 "other") store_with_log2).2).1
    = OK log2.
Proof. vm_compute. repeat split. Qed.

(** ** The theorems at concrete stores *)

Lemma healthy_store_with_three_rows : healthy store_with_three_rows.
Proof. by repeat constructor. Defined.

Lemma store_with_three_rows_not_empty :
  logs (tables store_with_three_rows) ≠ ∅.
Proof.
  intros He. apply (f_equal (λ m : gmap Z bytes, m !! 1)) in He.
  vm_compute in He. discriminate He.
Defined.

Lemma FirstIndex_smallest_or_zero_witness :
  healthy store_with_three_rows ∧
  (logs (tables store_with_three_rows) = ∅ →
   (FirstIndex store_with_three_rows).1 = OK 0) ∧
  (logs (tables store_with_three_rows) ≠ ∅ →
   ∃ i, (FirstIndex store_with_three_rows).1 = OK i ∧
        is_Some (logs (tables store_with_three_rows) !! i) ∧
        ∀ j, is_Some (logs (tables store_with_three_rows) !! j) → i ≤ j).
Proof.
  split; [exact healthy_store_with_three_rows|].
  exact (FirstIndex_smallest_or_zero store_with_three_rows
           healthy_store_with_three_rows).
Defined.

Lemma LastIndex_largest_or_no_rows_witness :
  healthy store_with_three_rows ∧
  (logs (tables store_with_three_rows) = ∅ →
   (LastIndex store_with_three_rows).1 = Err ErrNoRows) ∧
  (logs (tables store_with_three_rows) ≠ ∅ →
   ∃ i, (LastIndex store_with_three_rows).1 = OK i ∧
        is_Some (logs (tables store_with_three_rows) !! i) ∧
        ∀ j, is_Some (logs (tables store_with_three_rows) !! j) → j ≤ i).
Proof.
  split; [exact healthy_store_with_three_rows|].
  exact (LastIndex_largest_or_no_rows store_with_three_rows
           healthy_store_with_three_rows).
Defined.

Lemma DeleteRange_removes_exactly_witness :
  healthy store_with_three_rows ∧ 0 ≤ 1 < 2 ^ 63 ∧ 0 ≤ 2 < 2 ^ 63 ∧
  ∃ c', DeleteRange 1 2 store_with_three_rows = (OK tt, c') ∧
        ∀ i, (1 ≤ i ∧ i ≤ 2 →
              (@GetLog layout_codec i c').1 = Err ErrLogNotFound) ∧
             (i < 1 ∨ 2 < i →
              (@GetLog layout_codec i c').1 =
              (@GetLog layout_codec i store_with_three_rows).1).
Proof.
  assert (0 ≤ 1 < 2 ^ 63) as Hmin by lia.
  assert (0 ≤ 2 < 2 ^ 63) as Hmax by lia.
  split; [exact healthy_store_with_three_rows|].
  split; [exact Hmin|]. split; [exact Hmax|].
  exact (@DeleteRange_removes_exactly layout_codec 1 2 store_with_three_rows
           healthy_store_with_three_rows Hmin Hmax).
Defined.



Lemma history_of_TestDeleteRange_unique :
  unique_indices history_of_TestDeleteRange ∅.
Proof.
  unfold history_of_TestDeleteRange. cbn [unique_indices entries].
  split; [|split; [|split; [|split; [|split; [|split]]]]].
  - change (NoDup [1; 2; 3]). apply NoDup_ListNoDup.
    repeat (constructor; [simpl; lia|]). constructor.
  - intros l _. apply lookup_empty.
  - apply NoDup_nil_2.
  - intros l Hl. by apply elem_of_nil in Hl.
  - apply NoDup_singleton.
  - intros l Hl. apply list_elem_of_singleton in Hl. subst l.
    by vm_compute.
  - exact I.
Defined.

Lemma history_of_TestDeleteRange_round_trips :
  ∀ k l, k ∈ history_of_TestDeleteRange → l ∈ entries k →
         @round_trips layout_codec l.
Proof.
  intros k l Hk Hl. unfold history_of_TestDeleteRange in Hk.
  repeat (apply elem_of_cons in Hk as [->|Hk]); simpl in Hl;
    repeat (apply elem_of_cons in Hl as [->|Hl]);
    try (by apply elem_of_nil in Hl); try (by apply elem_of_nil in Hk);
    (eexists; split; [reflexivity|]; vm_compute; reflexivity).
Defined.

Lemma history_of_TestDeleteRange_accepted :
  ∀ k, k ∈ history_of_TestDeleteRange → accepted k.
Proof.
  intros k Hk. unfold history_of_TestDeleteRange in Hk.
  repeat (apply elem_of_cons in Hk as [->|Hk]);
    try (by apply elem_of_nil in Hk); simpl.
  - intros l Hl.
    repeat (apply elem_of_cons in Hl as [->|Hl]);
      try (by apply elem_of_nil in Hl); simpl; lia.
  - lia.
  - intros l Hl. apply list_elem_of_singleton in Hl. subst l. simpl. lia.
Defined.

Lemma GetLog_returns_stored_entry_witness :
  healthy (new_store []) ∧ logs (tables (new_store [])) = ∅ ∧
  (∀ k, k ∈ history_of_TestDeleteRange → accepted k) ∧
  unique_indices history_of_TestDeleteRange ∅ ∧
  ∃ c, @do_calls layout_codec history_of_TestDeleteRange (new_store [])
         = (OK tt, c) ∧
       (∀ i, 0 ≤ i < 2 ^ 63 →
             (@GetLog layout_codec i c).1 =
             match log_of history_of_TestDeleteRange !! i with
             | Some l => OK l
             | None => Err ErrLogNotFound
             end) ∧
       (stores_only history_of_TestDeleteRange →
        ∀ k l, k ∈ history_of_TestDeleteRange → l ∈ entries k →
               (@GetLog layout_codec (Index l) c).1 = OK l) ∧
       (∀ i, 0 ≤ i < 2 ^ 63 →
             (∀ k l, k ∈ history_of_TestDeleteRange → l ∈ entries k →
                     Index l ≠ i) →
             (@GetLog layout_codec i c).1 = Err ErrLogNotFound).
Proof.
  assert (healthy (new_store [])) as Hh by constructor.
  split; [exact Hh|]. split; [reflexivity|].
  split; [exact history_of_TestDeleteRange_accepted|].
  split; [exact history_of_TestDeleteRange_unique|].
  exact (@GetLog_returns_stored_entry layout_codec
           history_of_TestDeleteRange (new_store []) Hh eq_refl
           history_of_TestDeleteRange_accepted
           history_of_TestDeleteRange_unique
           history_of_TestDeleteRange_round_trips).
Defined.

Lemma operation_runs_in_one_transaction_witness :
  txn store_failing_third_call = None ∧
  txn (@perform layout_codec Op_LastIndex
         store_failing_third_call).2 = None ∧
  ∃ txerr,
    (passes_error_on Op_LastIndex = true →
     (@perform layout_codec Op_LastIndex
        store_failing_third_call).1 = txerr) ∧
    (∀ e, txerr = Some e → errors_Is e ErrNoRows = false →
          (@perform layout_codec Op_LastIndex
             store_failing_third_call).1 = Some e) ∧
    ∃ stmts last,
      trace (@perform layout_codec Op_LastIndex
               store_failing_third_call).2 =
        trace store_failing_third_call ++ EvBegin None :: stmts ++ [last] ∧
      Forall is_stmt stmts ∧
      tx_end (@closure layout_codec Op_LastIndex
                (db_Begin store_failing_third_call).2).1 last txerr ∧
      (last = EvCommit None →
       Some (tables (@perform layout_codec Op_LastIndex
                       store_failing_third_call).2) =
       txn (@closure layout_codec Op_LastIndex
              (db_Begin store_failing_third_call).2).2) ∧
      (last ≠ EvCommit None →
       tables (@perform layout_codec Op_LastIndex
                 store_failing_third_call).2 =
       tables store_failing_third_call) ∧
      (∀ rberr, last = EvRollback (Some rberr) →
         ∃ err e,
           (@closure layout_codec Op_LastIndex
              (db_Begin store_failing_third_call).2).1 = Some err ∧
           txerr = Some e ∧
           errors_Is e err = true ∧ errors_Is e rberr = true).
Proof.
  split; [reflexivity|].
  exact (@operation_runs_in_one_transaction layout_codec
           Op_LastIndex store_failing_third_call eq_refl).
Defined.

(** The log of the test history: indices 1 and 2 were deleted, 2 was stored
    again, 3 is as it was stored. *)
Example log_of_history_of_TestDeleteRange :
  log_of history_of_TestDeleteRange !! 1 = None ∧
  log_of history_of_TestDeleteRange !! 2 = Some (createRaftLog 2 "again") ∧
  log_of history_of_TestDeleteRange !! 3 = Some log3.
Proof. vm_compute. repeat split. Qed.

(** [TestFirstIndex] and [TestLastIndex]. *)
Example FirstIndex_LastIndex_of_tests :
  (FirstIndex (new_store [])).1 = OK 0 ∧
  (FirstIndex (@StoreLogs layout_codec [log1; log2; log3]
                 (new_store [])).2).1 = OK 1 ∧
  (LastIndex (@StoreLogs layout_codec [log1; log2; log3]
                (new_store [])).2).1 = OK 3.
Proof. vm_compute. repeat split. Qed.


(** * Further properties of the store *)

(** ** What a transaction can change *)

Lemma within_tx_QueryRow_Scan {A} (q : query A) :
  within eq (tx_QueryRow_Scan q).
Proof.
  intros c w Hw. unfold tx_QueryRow_Scan. rewrite Hw.
  destruct (next_fault c) as [e|]; [|destruct (q w) as [[a|]|e]]; simpl;
    by exists w.
Qed.

Lemma within_tx_Exec st : within (ran_or_not st) (tx_Exec st).
Proof.
  intros c w Hw. unfold tx_Exec, ran_or_not. rewrite Hw.
  destruct (next_fault c) as [e|]; [|destruct (st w) as [w'|e] eqn:Hst];
    simpl.
  - exists w. auto.
  - exists w'. auto.
  - exists w. auto.
Qed.

Lemma adds_rows_of_nil w : adds_rows_of [] w w.
Proof. by repeat split. Qed.

Lemma within_StoreLogs_func1 `{Codec} ls :
  within (adds_rows_of ls) (StoreLogs_func1 ls).
Proof.
  induction ls as [|l ls IH]; intros c w Hw; simpl.
  - exists w. split; [done|]. split; [apply adds_rows_of_nil|done].
  - destruct (encodeMsgPack l) as [b|e]; simpl.
    2:{ exists w. split; [done|]. by repeat split. }
    destruct (within_tx_Exec (INSERT_INTO_logs (Index l) b) c w Hw)
      as (w1 & Hw1 & Hran & Ht1).
    destruct (tx_Exec (INSERT_INTO_logs (Index l) b) c) as [r c1].
    simpl in *.
    destruct (IH c1 w1 Hw1) as (w2 & Hw2 & (Hkv & Hkeep & Hother) & Ht2).
    exists w2. split; [done|]. split; [|congruence].
    assert (kv w1 = kv w ∧
            (∀ i b', logs w !! i = Some b' → logs w1 !! i = Some b') ∧
            (∀ i, Index l ≠ i → logs w1 !! i = logs w !! i))
      as (Hkv1 & Hkeep1 & Hother1).
    { destruct Hran as [->|Hins]; [done|].
      apply INSERT_INTO_logs_OK in Hins as (_ & Hold & ->).
      simpl. split; [done|]. split.
      - intros i b' Hi. rewrite lookup_insert_ne; [done|]. congruence.
      - intros i Hne. by rewrite lookup_insert_ne. }
    split; [congruence|]. split.
    + intros i b' Hi. by apply Hkeep, Hkeep1.
    + intros i Hne. rewrite Hother, Hother1; [done| |].
      * apply Hne, list_elem_of_here.
      * intros l' Hl'. by apply Hne, list_elem_of_further.
Qed.

(** What [transaction] commits lies within the effect of its closure, and
    it commits only when it returns nil. *)
Lemma transaction_within {A} R (f : M A) c :
  within R f →
  tables (transaction f c).2 = tables c ∨
  ∃ a, (transaction f c).1 = OK a ∧
       R (tables c) (tables (transaction f c).2).
Proof.
  intros Hf. unfold transaction, db_Begin.
  destruct (next_fault c) as [e|]; simpl; [by left|].
  destruct (Hf (set_txn (Some (tables c)) (step (EvBegin None) c)) (tables c))
    as (w' & Hw' & HR & Ht); [done|].
  destruct (f _) as [[a|err] cf]; simpl in *.
  - unfold tx_Commit. rewrite Hw'.
    destruct (next_fault cf) as [e|]; simpl; [by left|].
    right. by exists a.
  - unfold tx_Rollback. rewrite Hw'.
    destruct (next_fault cf) as [e|]; simpl; by left.
Qed.

(** Every operation leaves the committed tables as they are, or returns nil
    and has committed a change within its effect. *)
Lemma perform_effect `{Codec} (o : operation) c :
  tables (perform o c).2 = tables c ∨
  ((perform o c).1 = None ∧ effect o (tables c) (tables (perform o c).2)).
Proof.
  destruct o; simpl.
  - unfold returned, FirstIndex.
    destruct (transaction_within eq FirstIndex_func1 c
                (within_tx_QueryRow_Scan _)) as [Ht|(a & _ & Ht)];
      destruct (transaction _ c) as [[a'|e] c']; simpl in *;
      try destruct (errors_Is e ErrNoRows); simpl; auto.
  - unfold returned, LastIndex.
    destruct (transaction_within eq LastIndex_func1 c
                (within_tx_QueryRow_Scan _)) as [Ht|(a & _ & Ht)];
      destruct (transaction _ c) as [[a'|e] c']; simpl in *; auto.
  - unfold returned, GetLog.
    destruct (transaction_within eq (GetLog_func1 idx) c
                (within_tx_QueryRow_Scan _)) as [Ht|(a & _ & Ht)];
      destruct (transaction _ c) as [[a'|e] c']; simpl in *;
      try destruct (errors_Is e ErrNoRows); simpl; auto.
  - unfold returned, StoreLog, StoreLogs.
    destruct (transaction_within _ (StoreLogs_func1 [log]) c
                (within_StoreLogs_func1 _)) as [Ht|(a & Hr & Ht)];
      destruct (transaction _ c) as [[a'|e] c']; simpl in *; auto; done.
  - unfold returned, StoreLogs.
    destruct (transaction_within _ (StoreLogs_func1 logs0) c
                (within_StoreLogs_func1 _)) as [Ht|(a & Hr & Ht)];
      destruct (transaction _ c) as [[a'|e] c']; simpl in *; auto; done.
  - unfold returned, DeleteRange, DeleteRange_func1.
    destruct (transaction_within _ (tx_Exec (DELETE_FROM_logs min max)) c
                (within_tx_Exec _)) as [Ht|(a & Hr & Ht)];
      destruct (transaction _ c) as [[a'|e] c']; simpl in *; auto; done.
  - unfold returned, Set_, Set_func1.
    destruct (transaction_within _ (tx_Exec (INSERT_OR_REPLACE_INTO_kv k v)) c
                (within_tx_Exec _)) as [Ht|(a & Hr & Ht)];
      destruct (transaction _ c) as [[a'|e] c']; simpl in *; auto; done.
  - unfold returned, Get.
    destruct (transaction_within eq (Get_func1 k) c
                (within_tx_QueryRow_Scan _)) as [Ht|(a & _ & Ht)];
      destruct (transaction _ c) as [[a'|e] c']; simpl in *;
      try destruct (errors_Is e ErrNoRows); simpl; auto.
  - unfold returned, SetUint64, Set_, Set_func1.
    destruct (transaction_within _
                (tx_Exec (INSERT_OR_REPLACE_INTO_kv key (uint64ToBytes val)))
                c (within_tx_Exec _)) as [Ht|(a & Hr & Ht)];
      destruct (transaction _ c) as [[a'|e] c']; simpl in *; auto; done.
  - unfold returned, GetUint64, bind, Get.
    destruct (transaction_within eq (Get_func1 key) c
                (within_tx_QueryRow_Scan _)) as [Ht|(a & _ & Ht)];
      destruct (transaction _ c) as [[a'|e] c']; simpl in *;
      try destruct (errors_Is e ErrNoRows); simpl; auto.
Qed.

(** X1: the operations that only query ([FirstIndex], [LastIndex], [GetLog],
    [Get], [GetUint64]) never change the committed tables, whatever the
    engine does and whatever they return. *)
Theorem reads_change_nothing `{Codec} (o : operation) (c : Conn) :
  is_read o = true → tables (perform o c).2 = tables c.
Proof.
  intros Hread.
  destruct (perform_effect o c) as [Ht|[_ He]]; [done|].
  by destruct o.
Qed.

(** X2: an operation that returns an error has changed nothing: whatever
    fails (begin, a statement, the codec, commit or rollback), the committed
    tables are the ones from before the call. *)
Theorem error_changes_nothing `{Codec} (o : operation) (c : Conn) (e : error) :
  (perform o c).1 = Some e → tables (perform o c).2 = tables c.
Proof.
  intros Herr. destruct (perform_effect o c) as [Ht|[Hnil _]]; [done|].
  congruence.
Qed.

(** X3: the two repositories do not touch each other: no log-store
    operation changes the table [kv] and no key/value operation changes the
    table [logs], whatever the engine does. *)
Theorem repositories_are_separate `{Codec} (o : operation) (c : Conn) :
  (is_kv_op o = false → kv (tables (perform o c).2) = kv (tables c)) ∧
  (is_kv_op o = true → logs (tables (perform o c).2) = logs (tables c)).
Proof.
  destruct (perform_effect o c) as [Ht|[_ He]]; [by rewrite Ht|].
  destruct o; simpl in *; split; intros Hk; try done;
    try (by rewrite He);
    try (by destruct He as (Hkv & _));
    try (destruct He as [->|[= <-]]; done).
  destruct He as [->|He]; [done|].
  apply DELETE_FROM_logs_OK in He. by rewrite He.
Qed.

(** ** What the writes leave alone *)

(** X4: [StoreLogs] never replaces or removes a row, and adds rows only at
    indices of its batch, whatever the engine does; in particular
    [StoreLogs] of an empty list changes no row. *)
Theorem StoreLogs_keeps_rows `{Codec} (ls : list Log) (c : Conn) :
  (∀ i b, logs (tables c) !! i = Some b →
          logs (tables (StoreLogs ls c).2) !! i = Some b) ∧
  (∀ i, (∀ l, l ∈ ls → Index l ≠ i) →
        logs (tables (StoreLogs ls c).2) !! i = logs (tables c) !! i).
Proof.
  destruct (perform_effect (Op_StoreLogs ls) c) as [Ht|[_ He]];
    simpl in Ht || simpl in He; unfold returned in *;
    destruct (StoreLogs ls c) as [r c']; simpl in *.
  - by rewrite Ht.
  - by destruct He as (_ & Hkeep & Hother).
Qed.

(** X5: [DeleteRange] never adds a row and leaves every row outside the
    closed interval as it is, whatever the engine does. *)
Theorem DeleteRange_keeps_rows_outside (min max : Z) (c : Conn) :
  (∀ i, ¬ (min ≤ i ∧ i ≤ max) →
        logs (tables (DeleteRange min max c).2) !! i = logs (tables c) !! i) ∧
  (∀ i b, logs (tables (DeleteRange min max c).2) !! i = Some b →
          logs (tables c) !! i = Some b).
Proof.
  unfold DeleteRange, DeleteRange_func1.
  destruct (transaction_within _ (tx_Exec (DELETE_FROM_logs min max)) c
              (within_tx_Exec _)) as [Ht|(a & _ & [Ht|Ht])];
    try (by rewrite Ht).
  apply DELETE_FROM_logs_OK in Ht. rewrite Ht. simpl. split.
  - intros i Hout. destruct (logs (tables c) !! i) as [b|] eqn:Hb.
    + by apply map_lookup_filter_Some_2.
    + apply map_lookup_filter_None_2. by left.
  - intros i b Hb. by apply map_lookup_filter_Some_1_1 in Hb.
Qed.

(** X6: [DeleteRange] of an empty interval ([max < min]) changes nothing. *)
Theorem DeleteRange_empty_interval (min max : Z) (c : Conn) :
  max < min → tables (DeleteRange min max c).2 = tables c.
Proof.
  intros Hlt. unfold DeleteRange, DeleteRange_func1.
  destruct (transaction_within _ (tx_Exec (DELETE_FROM_logs min max)) c
              (within_tx_Exec _)) as [Ht|(a & _ & [Ht|Ht])];
    try done.
  apply DELETE_FROM_logs_OK in Ht. rewrite Ht.
  rewrite map_filter_id; [by destruct (tables c)|].
  intros i b _. simpl. lia.
Qed.

(** X7: [Set k v] changes no other key: whatever the engine does, the value
    of every key other than [k] is the one from before, and [k] holds its old
    value or [v]. *)
Theorem Set_changes_one_key (k v : bytes) (c : Conn) :
  (∀ k', k' ≠ k →
         kv (tables (Set_ k v c).2) !! k' = kv (tables c) !! k') ∧
  (kv (tables (Set_ k v c).2) !! k = kv (tables c) !! k ∨
   kv (tables (Set_ k v c).2) !! k = Some v).
Proof.
  unfold Set_, Set_func1.
  destruct (transaction_within _ (tx_Exec (INSERT_OR_REPLACE_INTO_kv k v)) c
              (within_tx_Exec _)) as [Ht|(a & _ & [Ht|[= Ht]])];
    try (rewrite Ht; by auto).
  rewrite <- Ht. simpl. split.
  - intros k' Hne. by rewrite lookup_insert_ne.
  - right. apply lookup_insert_eq.
Qed.

(** ** Repeating a write *)

(** X8: on a working engine, with bounds that are [uint64] values below
    2^63, a second [DeleteRange] of the same interval succeeds and changes
    nothing. *)
Theorem DeleteRange_twice (min max : Z) (c : Conn) :
  healthy c → 0 ≤ min < 2 ^ 63 → 0 ≤ max < 2 ^ 63 →
  ∃ c1 c2, DeleteRange min max c = (OK tt, c1) ∧
           DeleteRange min max c1 = (OK tt, c2) ∧
           tables c2 = tables c1.
Proof.
  intros Hc [_ Hmin] [_ Hmax].
  destruct (DeleteRange_healthy min max c Hc Hmin Hmax)
    as (c1 & Hr1 & Ht1 & _ & Hc1).
  destruct (DeleteRange_healthy min max c1 Hc1 Hmin Hmax)
    as (c2 & Hr2 & Ht2 & _).
  exists c1, c2. split; [done|]. split; [done|].
  rewrite Ht2, Ht1. simpl. f_equal.
  apply map_filter_id. intros i b Hb.
  by apply map_lookup_filter_Some_1_2 in Hb.
Qed.

(** X9: on a working engine a second [Set] of the same key and value
    succeeds and changes nothing. *)
Theorem Set_twice (k v : bytes) (c : Conn) :
  healthy c →
  ∃ c1 c2, Set_ k v c = (OK tt, c1) ∧ Set_ k v c1 = (OK tt, c2) ∧
           tables c2 = tables c1.
Proof.
  intros Hc.
  destruct (Set_healthy k v c Hc) as (c1 & Hr1 & Ht1 & _ & Hc1).
  destruct (Set_healthy k v c1 Hc1) as (c2 & Hr2 & Ht2 & _).
  exists c1, c2. split; [done|]. split; [done|].
  rewrite Ht2, Ht1. simpl. by rewrite insert_insert_eq.
Qed.

(** ** What [StoreLogs] stores *)

Section Batches.
Context `{Codec}.

Lemma insert_each_encode_error pre l post t e :
  (∀ l', l' ∈ pre → ∃ b, encodeMsgPack l' = OK b) →
  encodeMsgPack l = Err e →
  insert_each (pre ++ l :: post) t = Err e.
Proof.
  revert t. induction pre as [|l0 pre IH]; intros t Henc Hl; simpl.
  - by rewrite Hl.
  - destruct (Henc l0) as [b ->]; [apply list_elem_of_here|].
    apply IH; [|done]. intros l' Hl'. by apply Henc, list_elem_of_further.
Qed.

Lemma insert_each_lookup ls t t' i :
  insert_each ls t = OK t' →
  logs t' !! i = match logs t !! i with
                 | Some b => Some b
                 | None => if decide (i < 2 ^ 63) then first_data i ls
                           else None
                 end.
Proof.
  revert t. induction ls as [|l ls IH]; intros t; simpl.
  - intros [= <-]. destruct (logs t !! i); [done|]. by case_decide.
  - destruct (encodeMsgPack l) as [b|e]; [|done].
    intros Hins. rewrite (IH _ Hins).
    destruct (INSERT_INTO_logs (Index l) b t) as [t1|e] eqn:Hl.
    + apply INSERT_INTO_logs_OK in Hl as (Hlt & Hold & ->). simpl.
      destruct (decide (Index l = i)) as [<-|Hne].
      * by rewrite lookup_insert_eq, Hold, decide_True.
      * by rewrite lookup_insert_ne.
    + destruct (logs t !! i) as [b'|] eqn:Hi; [done|].
      case_decide as Hi63; [|done].
      case_decide as Heq; [|done]. subst i.
      unfold INSERT_INTO_logs in Hl.
      rewrite uint64_arg_accepted, Hi in Hl by done. done.
Qed.

Lemma StoreLog_sequence_healthy ls c :
  healthy c →
  (∀ l, l ∈ ls → ∃ b, encodeMsgPack l = OK b) →
  ∃ c', do_calls (Call_StoreLog <$> ls) c = (OK tt, c') ∧
        insert_each ls (tables c) = OK (tables c').
Proof.
  revert c. induction ls as [|l ls IH]; intros c Hc Henc.
  - by exists c.
  - destruct (Henc l) as [b Hb]; [apply list_elem_of_here|].
    rewrite fmap_cons. cbn [do_calls do_call]. unfold bind, StoreLog.
    destruct (StoreLogs_healthy [l] c Hc) as (c1 & -> & Ht1 & _ & Hc1).
    simpl in *. rewrite Hb in *.
    destruct (IH c1 Hc1) as (c' & -> & Hins).
    { intros l' Hl'. by apply Henc, list_elem_of_further. }
    exists c'. split; [done|]. by rewrite <- Ht1.
Qed.

Lemma StoreLogs_func1_faults ls c w :
  (∀ l, l ∈ ls → ∃ b, encodeMsgPack l = OK b) →
  txn c = Some w →
  (StoreLogs_func1 ls c).1 = OK tt ∧
  is_Some (txn (StoreLogs_func1 ls c).2) ∧
  faults (StoreLogs_func1 ls c).2 = drop (length ls) (faults c).
Proof.
  revert c w. induction ls as [|l ls IH]; intros c w Henc Hw; simpl.
  - by rewrite Hw.
  - destruct (Henc l) as [b ->]; [apply list_elem_of_here|].
    assert (∃ w1, txn (tx_Exec (INSERT_INTO_logs (Index l) b) c).2 = Some w1 ∧
                  faults (tx_Exec (INSERT_INTO_logs (Index l) b) c).2
                  = tail (faults c)) as (w1 & Hw1 & Hf1).
    { unfold tx_Exec. rewrite Hw.
      destruct (next_fault c); [|destruct (INSERT_INTO_logs _ _ w)]; simpl;
        eauto. }
    destruct (tx_Exec (INSERT_INTO_logs (Index l) b) c) as [r c1].
    simpl in *.
    destruct (IH c1 w1) as (Hr & Ho & Hf); [|done|].
    { intros l' Hl'. by apply Henc, list_elem_of_further. }
    split; [done|]. split; [done|].
    rewrite Hf, Hf1. destruct (faults c); simpl; [apply drop_nil|done].
Qed.

End Batches.

Lemma next_fault_fault_at c : next_fault c = fault_at 0 c.
Proof. unfold next_fault, fault_at. by destruct (faults c) as [|[e|] fs]. Qed.

(** X10: on a working engine, when an entry of the batch does not encode,
    [StoreLogs] returns the codec's error and stores nothing, not even the
    entries before it. *)
Theorem StoreLogs_encode_error `{Codec} (pre post : list Log) (l : Log)
    (e : error) (c : Conn) :
  healthy c →
  (∀ l', l' ∈ pre → ∃ b, encodeMsgPack l' = OK b) →
  encodeMsgPack l = Err e →
  (StoreLogs (pre ++ l :: post) c).1 = Err e ∧
  tables (StoreLogs (pre ++ l :: post) c).2 = tables c.
Proof.
  intros Hc Hpre Hl.
  destruct (StoreLogs_healthy (pre ++ l :: post) c Hc) as (c' & -> & Ht & _).
  simpl. rewrite Ht.
  by rewrite (insert_each_encode_error pre l post (tables c) e).
Qed.

(** X11: on a working engine, when every entry encodes, [StoreLogs] returns
    nil and afterwards the row at an index is the one that was there before
    or else, for an index below 2^63, the data of the first entry of the
    batch with that index: of two entries with one index the first is stored
    and the second dropped, and an entry with an index from 2^63 on is
    dropped. *)
Theorem StoreLogs_first_entry_wins `{Codec} (ls : list Log) (c : Conn) :
  healthy c →
  (∀ l, l ∈ ls → ∃ b, encodeMsgPack l = OK b) →
  ∃ c', StoreLogs ls c = (OK tt, c') ∧
        ∀ i, logs (tables c') !! i =
             match logs (tables c) !! i with
             | Some b => Some b
             | None => if decide (i < 2 ^ 63) then first_data i ls
                       else None
             end.
Proof.
  intros Hc Henc.
  destruct (StoreLogs_healthy ls c Hc) as (c' & Hr & Ht & _).
  destruct (insert_each_encodable ls (tables c) Henc) as [t' Ht'].
  rewrite Ht' in Hr, Ht. exists c'. split; [done|].
  intros i. rewrite Ht. by apply insert_each_lookup.
Qed.

(** X12: on a working engine, when every entry encodes, one [StoreLogs] of a
    batch leaves the tables that [StoreLog] of its entries one after the
    other leaves. *)
Theorem StoreLogs_as_StoreLog_sequence `{Codec} (ls : list Log) (c : Conn) :
  healthy c →
  (∀ l, l ∈ ls → ∃ b, encodeMsgPack l = OK b) →
  ∃ c1 c2, StoreLogs ls c = (OK tt, c1) ∧
           do_calls (Call_StoreLog <$> ls) c = (OK tt, c2) ∧
           tables c1 = tables c2.
Proof.
  intros Hc Henc.
  destruct (StoreLogs_healthy ls c Hc) as (c1 & Hr & Ht & _).
  destruct (StoreLog_sequence_healthy ls c Hc Henc) as (c2 & Hr2 & Hins).
  rewrite Hins in Hr, Ht. by exists c1, c2.
Qed.

(** X13: when every entry encodes and [Begin] succeeds, what [StoreLogs]
    returns is what [Commit] returns: no failure of an insert, whether
    scheduled by the engine or raised by the primary key, reaches the
    caller. *)
Theorem StoreLogs_returns_what_Commit_returns `{Codec} (ls : list Log)
    (c : Conn) :
  (∀ l, l ∈ ls → ∃ b, encodeMsgPack l = OK b) →
  fault_at 0 c = None →
  (StoreLogs ls c).1 = match fault_at (S (length ls)) c with
                       | Some e => Err e
                       | None => OK tt
                       end.
Proof.
  intros Henc Hbegin. unfold StoreLogs, transaction, db_Begin.
  rewrite next_fault_fault_at, Hbegin.
  destruct (StoreLogs_func1_faults ls
              (set_txn (Some (tables c)) (step (EvBegin None) c)) (tables c)
              Henc eq_refl) as (Hr & [w Hw] & Hf).
  destruct (StoreLogs_func1 ls _) as [r cf]. simpl in *. subst r.
  unfold tx_Commit. rewrite Hw, next_fault_fault_at.
  assert (fault_at 0 cf = fault_at (S (length ls)) c) as ->.
  { unfold fault_at. rewrite Hf, lookup_drop, lookup_tail.
    by rewrite Nat.add_0_r. }
  by destruct (fault_at (S (length ls)) c).
Qed.

(** ** First and last index together *)

Lemma least_unique l k :
  k ∈ l → (∀ j, j ∈ l → k ≤ j) → least l = Some k.
Proof.
  intros Hin Hle. destruct (least l) as [k'|] eqn:Hk'.
  - apply least_spec in Hk' as [Hin' Hle'].
    specialize (Hle k' Hin'). specialize (Hle' k Hin). f_equal. lia.
  - apply least_nil in Hk'. subst l. by apply elem_of_nil in Hin.
Qed.

Lemma greatest_unique l k :
  k ∈ l → (∀ j, j ∈ l → j ≤ k) → greatest l = Some k.
Proof.
  intros Hin Hle. destruct (greatest l) as [k'|] eqn:Hk'.
  - apply greatest_spec in Hk' as [Hin' Hle'].
    specialize (Hle k' Hin'). specialize (Hle' k Hin). f_equal. lia.
  - apply greatest_nil in Hk'. subst l. by apply elem_of_nil in Hin.
Qed.

(** The indices that a range deletion leaves. *)
Lemma elem_of_indices_DELETE min max t i :
  i ∈ indices {| logs := filter (λ row, ¬ (min ≤ row.1 ∧ row.1 ≤ max))
                           (logs t);
                 kv := kv t |}
  ↔ i ∈ indices t ∧ ¬ (min ≤ i ∧ i ≤ max).
Proof.
  rewrite !elem_of_indices. simpl. split.
  - intros [b Hb]. apply map_lookup_filter_Some in Hb as [Hb Hout].
    split; [by exists b|done].
  - intros [[b Hb] Hout]. exists b. by apply map_lookup_filter_Some_2.
Qed.

(** X14: on a working engine with a log that is not empty, [FirstIndex] and
    [LastIndex] both succeed and the first index is at most the last. *)
Theorem FirstIndex_le_LastIndex (c : Conn) :
  healthy c → logs (tables c) ≠ ∅ →
  ∃ i j, (FirstIndex c).1 = OK i ∧ (LastIndex c).1 = OK j ∧ i ≤ j.
Proof.
  intros Hc Hne.
  destruct (FirstIndex_healthy c Hc) as (c1 & -> & _).
  destruct (LastIndex_healthy c Hc) as (c2 & -> & _). simpl.
  destruct (least (indices (tables c))) as [i|] eqn:Hi.
  2:{ by apply least_nil, indices_nil in Hi. }
  destruct (greatest (indices (tables c))) as [j|] eqn:Hj.
  2:{ by apply greatest_nil, indices_nil in Hj. }
  exists i, j. split; [done|]. split; [done|].
  apply least_spec in Hi as [Hin _]. apply greatest_spec in Hj as [_ Hle].
  by apply Hle.
Qed.

(** X15: on a working engine a range deletion, with bounds that are
    [uint64] values below 2^63, that does not cover the first index leaves
    [FirstIndex] as it was, and one that does not cover the last index
    leaves [LastIndex] as it was. *)
Theorem DeleteRange_keeps_ends_outside (min max : Z) (c : Conn) :
  healthy c → 0 ≤ min < 2 ^ 63 → 0 ≤ max < 2 ^ 63 →
  ∃ c', DeleteRange min max c = (OK tt, c') ∧
        (∀ i, (FirstIndex c).1 = OK i → ¬ (min ≤ i ∧ i ≤ max) →
              (FirstIndex c').1 = OK i) ∧
        (∀ j, (LastIndex c).1 = OK j → ¬ (min ≤ j ∧ j ≤ max) →
              (LastIndex c').1 = OK j).
Proof.
  intros Hc [_ Hmin] [_ Hmax].
  destruct (DeleteRange_healthy min max c Hc Hmin Hmax)
    as (c' & Hr & Ht & _ & Hc').
  exists c'. split; [done|].
  destruct (FirstIndex_healthy c Hc) as (c1 & -> & _).
  destruct (FirstIndex_healthy c' Hc') as (c2 & -> & _).
  destruct (LastIndex_healthy c Hc) as (c3 & -> & _).
  destruct (LastIndex_healthy c' Hc') as (c4 & -> & _).
  rewrite Ht. simpl. split.
  - intros i Hi Hout.
    destruct (least (indices (tables c))) as [k|] eqn:Hk; simpl in Hi.
    + injection Hi as ->. apply least_spec in Hk as [Hin Hle].
      rewrite (least_unique _ i); [done| |].
      * by apply elem_of_indices_DELETE.
      * intros j [Hj _]%elem_of_indices_DELETE. by apply Hle.
    + apply least_nil, indices_nil in Hk.
      assert (least (indices
                {| logs := filter (λ row, ¬ (min ≤ row.1 ∧ row.1 ≤ max))
                             (logs (tables c));
                   kv := kv (tables c) |}) = None) as ->; [|done].
      apply least_nil, indices_nil. simpl. rewrite Hk.
      apply map_filter_empty.
  - intros j Hj Hout.
    destruct (greatest (indices (tables c))) as [k|] eqn:Hk; [|done].
    injection Hj as ->. apply greatest_spec in Hk as [Hin Hle].
    rewrite (greatest_unique _ j); [done| |].
    + by apply elem_of_indices_DELETE.
    + intros i [Hi _]%elem_of_indices_DELETE. by apply Hle.
Qed.

(** ** Failures that are not a missing row *)

Lemma fault_at_step n ev c : fault_at n (step ev c) = fault_at (S n) c.
Proof. unfold fault_at. simpl. by rewrite lookup_tail. Qed.

(** A transaction around one query whose query the engine fails, while
    begin and rollback work. *)
Lemma transaction_query_fault {A} (q : query A) c e :
  fault_at 0 c = None → fault_at 1 c = Some e → fault_at 2 c = None →
  (transaction (tx_QueryRow_Scan q) c).1 = Err e.
Proof.
  intros H0 H1 H2. unfold transaction, db_Begin.
  rewrite next_fault_fault_at, H0. unfold tx_QueryRow_Scan. simpl.
  rewrite next_fault_fault_at.
  change (fault_at 0 (set_txn (Some (tables c)) (step (EvBegin None) c)))
    with (fault_at 0 (step (EvBegin None) c)).
  rewrite fault_at_step, H1. unfold tx_Rollback. simpl.
  rewrite next_fault_fault_at.
  change (fault_at 0 (step (EvStmt (Some e))
            (set_txn (Some (tables c)) (step (EvBegin None) c))))
    with (fault_at 0 (step (EvStmt (Some e)) (step (EvBegin None) c))).
  by rewrite !fault_at_step, H2.
Qed.

(** X16: when the engine fails the query of [FirstIndex], [LastIndex],
    [GetLog], [Get] or [GetUint64] with an error that is not
    [sql.ErrNoRows], and begin and rollback work, the operation returns that
    error as it is: a failure of the engine is not reported as a missing
    log or key, nor as an empty log. *)
Theorem reads_return_engine_error `{Codec} (c : Conn) (e : error)
    (idx : Z) (k : bytes) :
  fault_at 0 c = None → fault_at 1 c = Some e → fault_at 2 c = None →
  errors_Is e ErrNoRows = false →
  (FirstIndex c).1 = Err e ∧ (LastIndex c).1 = Err e ∧
  (GetLog idx c).1 = Err e ∧ (Get k c).1 = Err e ∧
  (GetUint64 k c).1 = Err e.
Proof.
  intros H0 H1 H2 He.
  pose proof (transaction_query_fault SELECT_idx_ASC_LIMIT_1 c e H0 H1 H2)
    as Hfirst.
  pose proof (transaction_query_fault SELECT_idx_DESC_LIMIT_1 c e H0 H1 H2)
    as Hlast.
  pose proof (transaction_query_fault (SELECT_data_FROM_logs idx) c e
                H0 H1 H2) as Hlog.
  pose proof (transaction_query_fault (SELECT_value_FROM_kv k) c e H0 H1 H2)
    as Hget.
  unfold FirstIndex, LastIndex, GetLog, GetUint64, bind, Get,
    FirstIndex_func1, LastIndex_func1, GetLog_func1, Get_func1.
  destruct (transaction (tx_QueryRow_Scan SELECT_idx_ASC_LIMIT_1) c)
    as [r1 c1].
  destruct (transaction (tx_QueryRow_Scan SELECT_idx_DESC_LIMIT_1) c)
    as [r2 c2].
  destruct (transaction (tx_QueryRow_Scan (SELECT_data_FROM_logs idx)) c)
    as [r3 c3].
  destruct (transaction (tx_QueryRow_Scan (SELECT_value_FROM_kv k)) c)
    as [r4 c4].
  simpl in *. subst. by rewrite He.
Qed.

(** X17: on a working engine [GetLog] of a row, at an index below 2^63,
    whose data does not decode returns the codec's error, not
    [raft.ErrLogNotFound]. *)
Theorem GetLog_undecodable_row `{Codec} (idx : Z) (data : bytes)
    (e : error) (c : Conn) :
  healthy c → 0 ≤ idx < 2 ^ 63 →
  logs (tables c) !! idx = Some data →
  decodeMsgPack data = Err e →
  (GetLog idx c).1 = Err e.
Proof.
  intros Hc [_ Hidx] Hrow Hdec.
  destruct (GetLog_healthy idx c Hc Hidx) as (c' & -> & _).
  simpl. by rewrite Hrow.
Qed.

(** ** The last index after an append *)

Lemma first_data_is_Some `{Codec} i ls :
  (∀ l, l ∈ ls → ∃ b, encodeMsgPack l = OK b) →
  is_Some (first_data i ls) ↔ ∃ l, l ∈ ls ∧ Index l = i.
Proof.
  intros Henc. induction ls as [|l0 ls IH]; simpl.
  - split; [by intros [? ?]|]. intros (l & Hl & _). by apply elem_of_nil in Hl.
  - case_decide as Heq.
    + destruct (Henc l0) as [b ->]; [apply list_elem_of_here|].
      split; [|by eexists]. intros _. exists l0.
      split; [apply list_elem_of_here|done].
    + rewrite IH by (intros l' Hl'; by apply Henc, list_elem_of_further).
      split.
      * intros (l & Hl & Hi). exists l. split; [|done].
        by apply list_elem_of_further.
      * intros (l & [->|Hl]%elem_of_cons & Hi); [done|]. by exists l.
Qed.

(** X18: on a working engine, after [StoreLogs] of a batch that is not
    empty, whose entries encode and have indices below 2^63, [LastIndex]
    succeeds with an index that bounds every index of the batch and every
    index stored before, and that is one of them. *)
Theorem LastIndex_after_StoreLogs `{Codec} (ls : list Log) (c : Conn) :
  healthy c →
  (∀ l, l ∈ ls → ∃ b, encodeMsgPack l = OK b) →
  (∀ l, l ∈ ls → 0 ≤ Index l < 2 ^ 63) →
  ls ≠ [] →
  ∃ c' j, StoreLogs ls c = (OK tt, c') ∧ (LastIndex c').1 = OK j ∧
          (∀ l, l ∈ ls → Index l ≤ j) ∧
          (∀ i, is_Some (logs (tables c) !! i) → i ≤ j) ∧
          ((∃ l, l ∈ ls ∧ Index l = j) ∨ is_Some (logs (tables c) !! j)).
Proof.
  intros Hc Henc Hlt Hne.
  destruct (StoreLogs_healthy ls c Hc) as (c' & Hr & Ht & _ & Hc').
  destruct (insert_each_encodable ls (tables c) Henc) as [t' Ht'].
  rewrite Ht' in Hr, Ht.
  assert (∀ i, is_Some (logs (tables c') !! i) ↔
               is_Some (logs (tables c) !! i) ∨ ∃ l, l ∈ ls ∧ Index l = i)
    as Hrows.
  { intros i. rewrite Ht, (insert_each_lookup ls (tables c) t' i Ht').
    destruct (logs (tables c) !! i) as [b|]; [split; [by left|by eexists]|].
    case_decide as Hi.
    - rewrite (first_data_is_Some i ls Henc). by intuition.
    - split; [by intros [? ?]|]. intros [[? ?]|(l & Hl & <-)]; [done|].
      destruct (Hlt l Hl). lia. }
  destruct (LastIndex_healthy c' Hc') as (c2 & Hlast & _).
  destruct (greatest (indices (tables c'))) as [j|] eqn:Hj.
  - apply greatest_spec in Hj as [Hin Hle].
    exists c', j. rewrite Hlast. split; [done|]. split; [done|].
    split; [|split].
    + intros l Hl. apply Hle, elem_of_indices, Hrows. right. by exists l.
    + intros i Hi. apply Hle, elem_of_indices, Hrows. by left.
    + apply elem_of_indices, Hrows in Hin. tauto.
  - apply greatest_nil, indices_nil in Hj. exfalso.
    destruct ls as [|l ls]; [done|].
    assert (is_Some (logs (tables c') !! Index l)) as [b Hb].
    { apply Hrows. right. exists l. split; [apply list_elem_of_here|done]. }
    rewrite Hj in Hb. by rewrite lookup_empty in Hb.
Qed.

(** ** Indices the driver refuses *)

(** X20: on a working engine an index from 2^63 on is refused as an
    argument: [GetLog] fails with the error of the refused argument, not
    with [raft.ErrLogNotFound]; [DeleteRange] with such a bound fails with it
    and deletes nothing; and [StoreLog] of an entry with such an index, whose
    insert is refused, returns nil and stores nothing. *)
Theorem high_bit_index_refused `{Codec} (idx other : Z) (l : Log) (c : Conn) :
  healthy c → 2 ^ 63 ≤ idx →
  (GetLog idx c).1 = Err ErrHighBit ∧
  ((DeleteRange idx other c).1 = Err ErrHighBit ∧
   tables (DeleteRange idx other c).2 = tables c) ∧
  ((DeleteRange other idx c).1 = Err ErrHighBit ∧
   tables (DeleteRange other idx c).2 = tables c) ∧
  (Index l = idx → (∃ b, encodeMsgPack l = OK b) →
   (StoreLog l c).1 = OK tt ∧ tables (StoreLog l c).2 = tables c).
Proof.
  intros Hc Hidx.
  assert (¬ idx < 2 ^ 63) as Hhigh by lia.
  assert (∀ min max, ¬ min < 2 ^ 63 ∨ ¬ max < 2 ^ 63 →
            (DeleteRange min max c).1 = Err ErrHighBit ∧
            tables (DeleteRange min max c).2 = tables c) as Hdel.
  { intros min max Hbad. unfold DeleteRange, DeleteRange_func1.
    destruct (transaction_exec_healthy (DELETE_FROM_logs min max) c Hc)
      as (c' & -> & Ht & _). simpl. rewrite Ht.
    assert (DELETE_FROM_logs min max (tables c) = Err ErrHighBit) as ->;
      [|done].
    unfold DELETE_FROM_logs, uint64_arg.
    destruct Hbad as [Hbad|Hbad]; repeat case_decide; done. }
  split; [by apply GetLog_refused|].
  split; [apply Hdel; by left|]. split; [apply Hdel; by right|].
  intros Hl [b Hb]. unfold StoreLog.
  destruct (StoreLogs_healthy [l] c Hc) as (c' & -> & Ht & _).
  simpl in *. rewrite Hb in *. unfold INSERT_INTO_logs in *.
  rewrite uint64_arg_refused in * by (by rewrite Hl). done.
Qed.

(** ** The further properties at concrete stores *)

Lemma layout_codec_encodes (ls : list Log) :
  ∀ l, l ∈ ls → ∃ b, @encodeMsgPack layout_codec l = OK b.
Proof. intros l _. eexists. reflexivity. Defined.

Lemma reads_change_nothing_witness :
  is_read (Op_GetLog 1) = true ∧
  tables (@perform layout_codec (Op_GetLog 1) store_failing_third_call).2
    = tables store_failing_third_call.
Proof.
  split; [reflexivity|].
  exact (@reads_change_nothing layout_codec (Op_GetLog 1)
           store_failing_third_call eq_refl).
Defined.

Lemma error_changes_nothing_witness :
  (@perform layout_codec (Op_Set [x6b] [x76]) store_failing_third_call).1
    = Some (ErrEngine "disk I/O error") ∧
  tables (@perform layout_codec (Op_Set [x6b] [x76])
            store_failing_third_call).2
    = tables store_failing_third_call.
Proof.
  split; [reflexivity|].
  exact (@error_changes_nothing layout_codec (Op_Set [x6b] [x76])
           store_failing_third_call (ErrEngine "disk I/O error") eq_refl).
Defined.

Lemma DeleteRange_empty_interval_witness :
  2 < 5 ∧
  tables (DeleteRange 5 2 store_with_three_rows).2
    = tables store_with_three_rows.
Proof.
  assert (2 < 5) as Hlt by lia. split; [exact Hlt|].
  exact (DeleteRange_empty_interval 5 2 store_with_three_rows Hlt).
Defined.

Lemma DeleteRange_twice_witness :
  healthy store_with_three_rows ∧ 0 ≤ 1 < 2 ^ 63 ∧ 0 ≤ 2 < 2 ^ 63 ∧
  ∃ c1 c2, DeleteRange 1 2 store_with_three_rows = (OK tt, c1) ∧
           DeleteRange 1 2 c1 = (OK tt, c2) ∧
           tables c2 = tables c1.
Proof.
  assert (0 ≤ 1 < 2 ^ 63) as Hmin by lia.
  assert (0 ≤ 2 < 2 ^ 63) as Hmax by lia.
  split; [exact healthy_store_with_three_rows|].
  split; [exact Hmin|]. split; [exact Hmax|].
  exact (DeleteRange_twice 1 2 store_with_three_rows
           healthy_store_with_three_rows Hmin Hmax).
Defined.

Lemma Set_twice_witness :
  healthy store_with_three_rows ∧
  ∃ c1 c2, Set_ [x6b] [x77] store_with_three_rows = (OK tt, c1) ∧
           Set_ [x6b] [x77] c1 = (OK tt, c2) ∧
           tables c2 = tables c1.
Proof.
  split; [exact healthy_store_with_three_rows|].
  exact (Set_twice [x6b] [x77] store_with_three_rows
           healthy_store_with_three_rows).
Defined.

Lemma checked_codec_encodes_log1 :
  ∀ l', l' ∈ [log1] → ∃ b, @encodeMsgPack checked_codec l' = OK b.
Proof.
  intros l' Hl'. apply list_elem_of_singleton in Hl'. subst l'.
  eexists. vm_compute. reflexivity.
Defined.

Lemma StoreLogs_encode_error_witness :
  healthy (new_store []) ∧
  @encodeMsgPack checked_codec log_out_of_range
    = Err (ErrCodec "entry does not fit") ∧
  (@StoreLogs checked_codec ([log1] ++ log_out_of_range :: [log3])
     (new_store [])).1 = Err (ErrCodec "entry does not fit") ∧
  tables (@StoreLogs checked_codec ([log1] ++ log_out_of_range :: [log3])
            (new_store [])).2 = tables (new_store []).
Proof.
  assert (healthy (new_store [])) as Hh by constructor.
  assert (@encodeMsgPack checked_codec log_out_of_range
          = Err (ErrCodec "entry does not fit")) as He
    by (vm_compute; reflexivity).
  split; [exact Hh|]. split; [exact He|].
  exact (@StoreLogs_encode_error checked_codec [log1] [log3]
           log_out_of_range (ErrCodec "entry does not fit") (new_store [])
           Hh checked_codec_encodes_log1 He).
Defined.

Lemma StoreLogs_first_entry_wins_witness :
  healthy (new_store []) ∧
  ∃ c', @StoreLogs layout_codec [log1; createRaftLog 1 "other"]
          (new_store []) = (OK tt, c') ∧
        ∀ i, logs (tables c') !! i =
             match logs (tables (new_store [])) !! i with
             | Some b => Some b
             | None =>
                 if decide (i < 2 ^ 63) then
                   @first_data layout_codec i [log1; createRaftLog 1 "other"]
                 else None
             end.
Proof.
  assert (healthy (new_store [])) as Hh by constructor.
  split; [exact Hh|].
  exact (@StoreLogs_first_entry_wins layout_codec
           [log1; createRaftLog 1 "other"] (new_store []) Hh
           (layout_codec_encodes _)).
Defined.

Lemma StoreLogs_as_StoreLog_sequence_witness :
  healthy (new_store []) ∧
  ∃ c1 c2,
    @StoreLogs layout_codec [log1; log2; createRaftLog 1 "other"]
      (new_store []) = (OK tt, c1) ∧
    @do_calls layout_codec
      (Call_StoreLog <$> [log1; log2; createRaftLog 1 "other"])
      (new_store []) = (OK tt, c2) ∧
    tables c1 = tables c2.
Proof.
  assert (healthy (new_store [])) as Hh by constructor.
  split; [exact Hh|].
  exact (@StoreLogs_as_StoreLog_sequence layout_codec
           [log1; log2; createRaftLog 1 "other"] (new_store []) Hh
           (layout_codec_encodes _)).
Defined.

Lemma StoreLogs_returns_what_Commit_returns_witness :
  fault_at 0 store_failing_second_call = None ∧
  (@StoreLogs layout_codec [log1] store_failing_second_call).1 =
    match fault_at (S (length [log1])) store_failing_second_call with
    | Some e => Err e
    | None => OK tt
    end.
Proof.
  split; [reflexivity|].
  exact (@StoreLogs_returns_what_Commit_returns layout_codec [log1]
           store_failing_second_call (layout_codec_encodes _) eq_refl).
Defined.

Lemma FirstIndex_le_LastIndex_witness :
  healthy store_with_three_rows ∧
  logs (tables store_with_three_rows) ≠ ∅ ∧
  ∃ i j, (FirstIndex store_with_three_rows).1 = OK i ∧
         (LastIndex store_with_three_rows).1 = OK j ∧ i ≤ j.
Proof.
  split; [exact healthy_store_with_three_rows|].
  split; [exact store_with_three_rows_not_empty|].
  exact (FirstIndex_le_LastIndex store_with_three_rows
           healthy_store_with_three_rows store_with_three_rows_not_empty).
Defined.

Lemma DeleteRange_keeps_ends_outside_witness :
  healthy store_with_three_rows ∧ 0 ≤ 2 < 2 ^ 63 ∧
  ∃ c', DeleteRange 2 2 store_with_three_rows = (OK tt, c') ∧
        (∀ i, (FirstIndex store_with_three_rows).1 = OK i →
              ¬ (2 ≤ i ∧ i ≤ 2) → (FirstIndex c').1 = OK i) ∧
        (∀ j, (LastIndex store_with_three_rows).1 = OK j →
              ¬ (2 ≤ j ∧ j ≤ 2) → (LastIndex c').1 = OK j).
Proof.
  assert (0 ≤ 2 < 2 ^ 63) as Hb by lia.
  split; [exact healthy_store_with_three_rows|]. split; [exact Hb|].
  exact (DeleteRange_keeps_ends_outside 2 2 store_with_three_rows
           healthy_store_with_three_rows Hb Hb).
Defined.

Lemma reads_return_engine_error_witness :
  fault_at 0 store_failing_second_call = None ∧
  fault_at 1 store_failing_second_call = Some (ErrEngine "disk I/O error") ∧
  fault_at 2 store_failing_second_call = None ∧
  errors_Is (ErrEngine "disk I/O error") ErrNoRows = false ∧
  (FirstIndex store_failing_second_call).1
    = Err (ErrEngine "disk I/O error") ∧
  (LastIndex store_failing_second_call).1
    = Err (ErrEngine "disk I/O error") ∧
  (@GetLog layout_codec 1 store_failing_second_call).1
    = Err (ErrEngine "disk I/O error") ∧
  (Get [x6b] store_failing_second_call).1
    = Err (ErrEngine "disk I/O error") ∧
  (GetUint64 [x6b] store_failing_second_call).1
    = Err (ErrEngine "disk I/O error").
Proof.
  split; [reflexivity|]. split; [reflexivity|]. split; [reflexivity|].
  split; [reflexivity|].
  exact (@reads_return_engine_error layout_codec store_failing_second_call
           (ErrEngine "disk I/O error") 1 [x6b] eq_refl eq_refl eq_refl
           eq_refl).
Defined.

Lemma GetLog_undecodable_row_witness :
  healthy store_with_three_rows ∧ 0 ≤ 1 < 2 ^ 63 ∧
  logs (tables store_with_three_rows) !! 1 = Some [x61] ∧
  @decodeMsgPack layout_codec [x61] = Err (ErrCodec "short buffer") ∧
  (@GetLog layout_codec 1 store_with_three_rows).1
    = Err (ErrCodec "short buffer").
Proof.
  assert (logs (tables store_with_three_rows) !! 1 = Some [x61]) as Hrow
    by (vm_compute; reflexivity).
  assert (@decodeMsgPack layout_codec [x61] = Err (ErrCodec "short buffer"))
    as Hdec by (vm_compute; reflexivity).
  assert (0 ≤ 1 < 2 ^ 63) as Hidx by lia.
  split; [exact healthy_store_with_three_rows|]. split; [exact Hidx|].
  split; [exact Hrow|]. split; [exact Hdec|].
  exact (@GetLog_undecodable_row layout_codec 1 [x61]
           (ErrCodec "short buffer") store_with_three_rows
           healthy_store_with_three_rows Hidx Hrow Hdec).
Defined.

Lemma log2_log7_in_range :
  ∀ l, l ∈ [log2; createRaftLog 7 "log7"] → 0 ≤ Index l < 2 ^ 63.
Proof.
  intros l Hl.
  repeat (apply elem_of_cons in Hl as [->|Hl]);
    try (by apply elem_of_nil in Hl); simpl; lia.
Defined.

Lemma LastIndex_after_StoreLogs_witness :
  healthy store_with_three_rows ∧ [log2; createRaftLog 7 "log7"] ≠ [] ∧
  ∃ c' j,
    @StoreLogs layout_codec [log2; createRaftLog 7 "log7"]
      store_with_three_rows = (OK tt, c') ∧
    (LastIndex c').1 = OK j ∧
    (∀ l, l ∈ [log2; createRaftLog 7 "log7"] → Index l ≤ j) ∧
    (∀ i, is_Some (logs (tables store_with_three_rows) !! i) → i ≤ j) ∧
    ((∃ l, l ∈ [log2; createRaftLog 7 "log7"] ∧ Index l = j) ∨
     is_Some (logs (tables store_with_three_rows) !! j)).
Proof.
  assert ([log2; createRaftLog 7 "log7"] ≠ []) as Hne by discriminate.
  split; [exact healthy_store_with_three_rows|]. split; [exact Hne|].
  exact (@LastIndex_after_StoreLogs layout_codec
           [log2; createRaftLog 7 "log7"] store_with_three_rows
           healthy_store_with_three_rows (layout_codec_encodes _)
           log2_log7_in_range Hne).
Defined.

Lemma high_bit_index_refused_witness :
  healthy (new_store []) ∧ 2 ^ 63 ≤ 2 ^ 63 ∧
  (@GetLog layout_codec (2 ^ 63) (new_store [])).1 = Err ErrHighBit ∧
  ((DeleteRange (2 ^ 63) 5 (new_store [])).1 = Err ErrHighBit ∧
   tables (DeleteRange (2 ^ 63) 5 (new_store [])).2
     = tables (new_store [])) ∧
  ((DeleteRange 5 (2 ^ 63) (new_store [])).1 = Err ErrHighBit ∧
   tables (DeleteRange 5 (2 ^ 63) (new_store [])).2
     = tables (new_store [])) ∧
  (Index (createRaftLog (2 ^ 63) "log") = 2 ^ 63 →
   (∃ b, @encodeMsgPack layout_codec (createRaftLog (2 ^ 63) "log") = OK b) →
   (@StoreLog layout_codec (createRaftLog (2 ^ 63) "log")
      (new_store [])).1 = OK tt ∧
   tables (@StoreLog layout_codec (createRaftLog (2 ^ 63) "log")
             (new_store [])).2 = tables (new_store [])).
Proof.
  assert (healthy (new_store [])) as Hh by constructor.
  assert (2 ^ 63 ≤ 2 ^ 63) as Hidx by lia.
  split; [exact Hh|]. split; [exact Hidx|].
  exact (@high_bit_index_refused layout_codec (2 ^ 63) 5
           (createRaftLog (2 ^ 63) "log") (new_store []) Hh Hidx).
Defined.
